(** * Tic-Tac-Toe: board model, terminal evaluator, minimax search and session

    A shallow embedding of [src/tic-tac-toe/src/App.tsx].  That file holds the
    two variants of the [App] component one after the other: the two-player
    variant (lines 1-176) and the player-versus-computer variant (lines
    176-450).  The pure helpers ([checkWinner], [isBoardFull]) are textually
    identical in both; the search ([getEmptyCells], [minimax], [getBestMove],
    [makeComputerMove]) only exists in the second.

    Conventions of the embedding:
    - a JavaScript array is a [list]; reading past its end yields [Undefined],
      writing past its end extends it (the holes in between are read back as
      [Undefined], which is all that [every], [map], [filter], the spread
      [[...board]] and an indexed read can observe of a hole);
    - a JavaScript [number] that the code uses as a score is an integer
      extended with the two infinities ([Score]); depths are integers in [Z];
    - the React state of the component is the record [Session]; an event
      handler is a function [Session -> Session] giving the state committed
      after the handler's batch of [set...] calls. *)

From Stdlib Require Import ZArith Lia.
From stdpp Require Import base option list sorting strings.

Local Open Scope Z_scope.

(** ** Data model *)

(** [type Player = 'X' | 'O'] *)
Inductive Player : Type := X | O.

(** An element of [Board = (Player | null)[]] as it can be read at run time:
    [null], a mark, or [undefined] (index past the end, or a hole). *)
Inductive Cell : Type :=
| Null
| Mark (p : Player)
| Undefined.

(** [type Board = (Player | null)[]] *)
Abbreviation Board := (list Cell).

(** [type GameState = 'playing' | 'won' | 'draw'] *)
Inductive GameState : Type := Playing | Won | Draw.

(** [interface GameStats] *)
Record GameStats : Type := mkStats {
  xWins : Z;
  oWins : Z;
  draws : Z
}.

Global Instance Player_eq_dec : EqDecision Player.
Proof. solve_decision. Defined.
Global Instance Cell_eq_dec : EqDecision Cell.
Proof. solve_decision. Defined.
Global Instance GameState_eq_dec : EqDecision GameState.
Proof. solve_decision. Defined.

(** [board[i]] *)
Definition cellAt (board : Board) (i : nat) : Cell :=
  default Undefined (board !! i).

(** JavaScript truthiness of a cell: only a mark (a non-empty string) is
    truthy; [null] and [undefined] are falsy. *)
Definition truthy (c : Cell) : bool :=
  match c with Mark _ => true | _ => false end.

(** [cell === null] *)
Definition isNull (c : Cell) : bool :=
  match c with Null => true | _ => false end.

(** [a === b] on cells. *)
Definition cell_eqb (a b : Cell) : bool := bool_decide (a = b).

(** [const newBoard = [...board]; newBoard[i] = v;]
    In range the element is replaced; out of range the array grows. *)
Definition setCell (board : Board) (i : nat) (v : Cell) : Board :=
  if decide (i < length board)%nat
  then <[i := v]> board
  else board ++ replicate (i - length board) Undefined ++ [v].

(** [Array(9).fill(null)] *)
Definition emptyBoard : Board := replicate 9 Null.

(** ** Terminal evaluator *)

(** [winningCombinations] *)
Definition winningCombinations : list (nat * nat * nat) :=
  [ (0, 1, 2); (3, 4, 5); (6, 7, 8);    (* Rows *)
    (0, 3, 6); (1, 4, 7); (2, 5, 8);    (* Columns *)
    (0, 4, 8); (2, 4, 6) ]%nat.         (* Diagonals *)

(** The test of the [if] inside [checkWinner]'s loop:
    [board[a] && board[a] === board[b] && board[a] === board[c]]. *)
Definition comboWon (board : Board) (combo : nat * nat * nat) : bool :=
  let '(a, b, c) := combo in
  truthy (cellAt board a)
  && cell_eqb (cellAt board a) (cellAt board b)
  && cell_eqb (cellAt board a) (cellAt board c).

(** [board[a] as Player]: the cast is only reached on a truthy cell. *)
Definition asPlayer (c : Cell) : option Player :=
  match c with Mark p => Some p | _ => None end.

(** The [for (const combo of ...)] loop with its early [return]. *)
Fixpoint checkWinnerFrom (combos : list (nat * nat * nat)) (board : Board)
  : option Player :=
  match combos with
  | [] => None
  | combo :: rest =>
      if comboWon board combo
      then asPlayer (cellAt board (fst (fst combo)))
      else checkWinnerFrom rest board
  end.

Definition checkWinner (board : Board) : option Player :=
  checkWinnerFrom winningCombinations board.

(** [board.every(cell => cell !== null)] *)
Definition isBoardFull (board : Board) : bool :=
  forallb (fun cell => negb (isNull cell)) board.

(** [board.map((cell, index) => cell === null ? index : -1)
          .filter(index => index !== -1)] *)
Definition getEmptyCells (board : Board) : list Z :=
  filter (fun index : Z => index <> -1)
         (imap (fun index cell => if isNull cell then Z.of_nat index else -1)
               board).

(** ** Scores: integers with [-Infinity] and [Infinity] *)

Inductive Score : Type :=
| NegInf
| Fin (z : Z)
| PosInf.

(** [Math.max] *)
Definition smax (a b : Score) : Score :=
  match a, b with
  | PosInf, _ | _, PosInf => PosInf
  | NegInf, s | s, NegInf => s
  | Fin x, Fin y => Fin (Z.max x y)
  end.

(** [Math.min] *)
Definition smin (a b : Score) : Score :=
  match a, b with
  | NegInf, _ | _, NegInf => NegInf
  | PosInf, s | s, PosInf => s
  | Fin x, Fin y => Fin (Z.min x y)
  end.

(** [a > b] *)
Definition sgt (a b : Score) : bool :=
  match a, b with
  | NegInf, _ => false
  | _, PosInf => false
  | Fin x, Fin y => x >? y
  | Fin _, NegInf => true
  | PosInf, _ => true
  end.

(** Unary minus. *)
Definition sneg (a : Score) : Score :=
  match a with
  | NegInf => PosInf
  | Fin x => Fin (- x)
  | PosInf => NegInf
  end.

(** [a <= b] as a proposition, for stating results. *)
Definition sle (a b : Score) : Prop := sgt a b = false.

(** ** Game-tree search *)

(** [minimax] with an explicit bound on the nesting of recursive calls;
    [None] means the bound was hit.  The body is the source's: the three
    terminal tests, then the [for (let i = 0; i < 9; i++)] loop of the
    branch selected by [isMaximizing]. *)
Fixpoint minimax_fuel (fuel : nat) (board : Board) (depth : Z)
         (isMaximizing : bool) : option Score :=
  match fuel with
  | 0%nat => None
  | S fuel' =>
      match checkWinner board with
      | Some O => Some (Fin (10 - depth))
      | Some X => Some (Fin (depth - 10))
      | None =>
          if isBoardFull board then Some (Fin 0)
          else if isMaximizing then
            foldl (fun best i =>
                     bestScore ← best;
                     if isNull (cellAt board i) then
                       score ← minimax_fuel fuel' (setCell board i (Mark O))
                                            (depth + 1) false;
                       Some (smax score bestScore)
                     else Some bestScore)
                  (Some NegInf) (seq 0 9)
          else
            foldl (fun best i =>
                     bestScore ← best;
                     if isNull (cellAt board i) then
                       score ← minimax_fuel fuel' (setCell board i (Mark X))
                                            (depth + 1) true;
                       Some (smin score bestScore)
                     else Some bestScore)
                  (Some PosInf) (seq 0 9)
      end
  end.

(** The loop only looks at indices 0..8, so ten levels always suffice
    (see [minimax_fuel_total]); the default is never used. *)
Definition minimax (board : Board) (depth : Z) (isMaximizing : bool) : Score :=
  default (Fin 0) (minimax_fuel 10 board depth isMaximizing).

Global Arguments minimax : simpl never.

(** [getBestMove]: the loop state is the pair [(bestScore, bestMove)]. *)
Definition getBestMove (board : Board) : Z :=
  snd (foldl (fun (st : Score * Z) (i : nat) =>
                let '(bestScore, bestMove) := st in
                if isNull (cellAt board i) then
                  let score := minimax (setCell board i (Mark O)) 0 false in
                  if sgt score bestScore then (score, Z.of_nat i)
                  else (bestScore, bestMove)
                else (bestScore, bestMove))
             (NegInf, -1) (seq 0 9)).

(** ** Session state *)

(** The five [useState] cells of the component. *)
Record Session : Type := mkSession {
  board : Board;
  currentPlayer : Player;
  gameState : GameState;
  winner : option Player;
  stats : GameStats
}.

(** The initial values passed to [useState]. *)
Definition newSession : Session :=
  {| board := emptyBoard; currentPlayer := X; gameState := Playing;
     winner := None; stats := mkStats 0 0 0 |}.

(** [currentPlayer === 'X' ? 'O' : 'X'] *)
Definition otherPlayer (p : Player) : Player :=
  match p with X => O | O => X end.

(** [prev => ({ ...prev, [gameWinner === 'X' ? 'xWins' : 'oWins']:
                 prev[gameWinner === 'X' ? 'xWins' : 'oWins'] + 1 })] *)
Definition recordWin (gameWinner : Player) (prev : GameStats) : GameStats :=
  match gameWinner with
  | X => mkStats (xWins prev + 1) (oWins prev) (draws prev)
  | O => mkStats (xWins prev) (oWins prev + 1) (draws prev)
  end.

(** [prev => ({ ...prev, draws: prev.draws + 1 })] *)
Definition recordDraw (prev : GameStats) : GameStats :=
  mkStats (xWins prev) (oWins prev) (draws prev + 1).

(** The block that follows [setBoard(newBoard)] in each of the three move
    handlers (lines 52-65, 289-302 and 312-325).  The three copies differ
    only in the player handed to [setCurrentPlayer] in the last branch,
    here [next]. *)
Definition settleMove (newBoard : Board) (next : Player) (s : Session)
  : Session :=
  match checkWinner newBoard with
  | Some gameWinner =>
      {| board := newBoard; currentPlayer := currentPlayer s;
         gameState := Won; winner := Some gameWinner;
         stats := recordWin gameWinner (stats s) |}
  | None =>
      if isBoardFull newBoard then
        {| board := newBoard; currentPlayer := currentPlayer s;
           gameState := Draw; winner := winner s;
           stats := recordDraw (stats s) |}
      else
        {| board := newBoard; currentPlayer := next;
           gameState := gameState s; winner := winner s;
           stats := stats s |}
  end.

(** [resetGame] (same text in both variants). *)
Definition resetGame (s : Session) : Session :=
  {| board := emptyBoard; currentPlayer := X; gameState := Playing;
     winner := None; stats := stats s |}.

(** [resetStats] (same text in both variants). *)
Definition resetStats (s : Session) : Session :=
  {| board := board s; currentPlayer := currentPlayer s;
     gameState := gameState s; winner := winner s;
     stats := mkStats 0 0 0 |}.

(** The two-player variant (lines 1-176). *)
Module TwoPlayer.

(** [handleCellClick], lines 45-66.  [index] ranges over array indices. *)
Definition handleCellClick (index : nat) (s : Session) : Session :=
  if truthy (cellAt (board s) index)
     || negb (bool_decide (gameState s = Playing))
  then s
  else
    let newBoard := setCell (board s) index (Mark (currentPlayer s)) in
    settleMove newBoard (otherPlayer (currentPlayer s)) s.

End TwoPlayer.

(** The player-versus-computer variant (lines 176-450). *)
Module VsComputer.

(** [Math.floor(Math.random() * n)]: some index below [n], chosen by the
    draw [r]. *)
Definition randomIndex (r n : nat) : nat := (r mod n)%nat.

(** [makeComputerMove], lines 274-303; [r] is the random draw.  The index
    written is never negative when the write is reached (see
    [computerMove_is_empty_cell]), hence the [Z.to_nat]. *)
Definition makeComputerMove (r : nat) (currentBoard : Board) (s : Session)
  : Session :=
  let emptyCells := getEmptyCells currentBoard in
  if decide (length emptyCells = 0%nat) then s
  else
    let computerMove := getBestMove currentBoard in
    let computerMove :=
      if decide (computerMove = -1)
      then emptyCells !!! randomIndex r (length emptyCells)
      else computerMove in
    let newBoard := setCell currentBoard (Z.to_nat computerMove) (Mark O) in
    settleMove newBoard X s.

(** [handleCellClick], lines 305-326. *)
Definition handleCellClick (index : nat) (s : Session) : Session :=
  if truthy (cellAt (board s) index)
     || negb (bool_decide (gameState s = Playing))
     || negb (bool_decide (currentPlayer s = X))
  then s
  else
    let newBoard := setCell (board s) index (Mark X) in
    settleMove newBoard O s.

(** The [useEffect] of lines 329-337: once the timer fires, the computer
    moves on the committed board if it is its turn. *)
Definition computerTurn (r : nat) (s : Session) : Session :=
  if bool_decide (currentPlayer s = O) && bool_decide (gameState s = Playing)
  then makeComputerMove r (board s) s
  else s.

End VsComputer.

(** ** Optimal self-play

    The source only selects moves for 'O'.  For the self-play property the
    minimizer needs a selector too: [getBestMoveX] is [getBestMove] with the
    mark, the role flag and the comparison mirrored (start from [Infinity],
    write 'X', score with the maximizer to answer, keep the first strictly
    smaller score). *)

(** [a < b] *)
Definition slt (a b : Score) : bool := sgt b a.

Definition getBestMoveX (board : Board) : Z :=
  snd (foldl (fun (st : Score * Z) (i : nat) =>
                let '(bestScore, bestMove) := st in
                if isNull (cellAt board i) then
                  let score := minimax (setCell board i (Mark X)) 0 true in
                  if slt score bestScore then (score, Z.of_nat i)
                  else (bestScore, bestMove)
                else (bestScore, bestMove))
             (PosInf, -1) (seq 0 9)).

(** One round of self-play in the player-versus-computer session: 'X'
    clicks the cell chosen by [getBestMoveX], then the computer answers. *)
Definition selfPlayRound (r : nat) (s : Session) : Session :=
  VsComputer.computerTurn r
    (VsComputer.handleCellClick (Z.to_nat (getBestMoveX (board s))) s).

Fixpoint selfPlay (r : nat) (rounds : nat) (s : Session) : Session :=
  match rounds with
  | 0%nat => s
  | S n => selfPlay r n (selfPlayRound r s)
  end.

(** * Properties *)

(** ** Arrays *)

Lemma cellAt_lookup (b : Board) i c : b !! i = Some c -> cellAt b i = c.
Proof. unfold cellAt. intros ->. reflexivity. Qed.

Lemma cellAt_ge (b : Board) i : (length b <= i)%nat -> cellAt b i = Undefined.
Proof. intros H. unfold cellAt. rewrite lookup_ge_None_2; [reflexivity | lia]. Qed.

Lemma cellAt_Null_lt (b : Board) i : cellAt b i = Null -> (i < length b)%nat.
Proof.
  intros H. destruct (decide (i < length b)%nat) as [|Hge]; [assumption|].
  rewrite cellAt_ge in H by lia. discriminate.
Qed.

Lemma setCell_in_range (b : Board) i v :
  (i < length b)%nat -> setCell b i v = <[i := v]> b.
Proof. intros H. unfold setCell. rewrite decide_True; auto. Qed.

Lemma length_setCell_in_range (b : Board) i v :
  (i < length b)%nat -> length (setCell b i v) = length b.
Proof. intros H. rewrite setCell_in_range by assumption. apply length_insert. Qed.

Lemma length_setCell_out_of_range (b : Board) i v :
  (length b <= i)%nat -> length (setCell b i v) = S i.
Proof.
  intros H. unfold setCell. rewrite decide_False by lia.
  rewrite !length_app, length_replicate. simpl. lia.
Qed.

Lemma cellAt_setCell_eq (b : Board) i v :
  (i < length b)%nat -> cellAt (setCell b i v) i = v.
Proof.
  intros H. rewrite setCell_in_range by assumption.
  apply cellAt_lookup, list_lookup_insert_eq, H.
Qed.

Lemma cellAt_setCell_ne (b : Board) i j v :
  (i < length b)%nat -> i <> j -> cellAt (setCell b i v) j = cellAt b j.
Proof.
  intros H Hne. rewrite setCell_in_range by assumption.
  unfold cellAt. rewrite list_lookup_insert_ne by assumption. reflexivity.
Qed.

(** ** Terminal evaluator *)

(** All three cells of [combo] hold the mark of player [p]. *)
Definition lineHeldBy (b : Board) (combo : nat * nat * nat) (p : Player)
  : Prop :=
  cellAt b (fst (fst combo)) = Mark p
  /\ cellAt b (snd (fst combo)) = Mark p
  /\ cellAt b (snd combo) = Mark p.

Lemma comboWon_held (b : Board) combo :
  comboWon b combo = true <-> exists p, lineHeldBy b combo p.
Proof.
  destruct combo as [[a1 a2] a3]. unfold comboWon, lineHeldBy, cell_eqb. simpl.
  rewrite !andb_true_iff, !bool_decide_eq_true. split.
  - intros [[Ht E2] E3]. destruct (cellAt b a1) as [|p|] eqn:E1; try discriminate.
    exists p. auto.
  - intros [p (E1 & E2 & E3)]. rewrite E1, E2, E3. auto.
Qed.

Lemma comboWon_false_not_held (b : Board) combo p :
  comboWon b combo = false -> ~ lineHeldBy b combo p.
Proof.
  intros Hf Hh. assert (comboWon b combo = true) as Ht
    by (apply comboWon_held; eauto).
  congruence.
Qed.

Lemma lineHeldBy_unique (b : Board) combo p q :
  lineHeldBy b combo p -> lineHeldBy b combo q -> p = q.
Proof. intros [E _] [E' _]. congruence. Qed.

Lemma checkWinnerFrom_Some combos (b : Board) p :
  checkWinnerFrom combos b = Some p <->
  exists k combo,
    combos !! k = Some combo /\ lineHeldBy b combo p
    /\ forall k' combo' q,
         (k' < k)%nat -> combos !! k' = Some combo' -> ~ lineHeldBy b combo' q.
Proof.
  induction combos as [|c rest IH]; simpl.
  - split; [discriminate|]. intros (k & combo & Hk & _). destruct k; discriminate.
  - destruct (comboWon b c) eqn:Hc.
    + apply comboWon_held in Hc as [p0 Hp0].
      assert (asPlayer (cellAt b (fst (fst c))) = Some p0) as ->
        by (destruct Hp0 as [-> _]; reflexivity).
      split.
      * intros [= <-]. exists 0%nat, c. split; [reflexivity|]. split; [assumption|].
        intros k' ? ? Hlt. lia.
      * intros (k & combo & Hk & Hheld & Hmin). destruct k as [|k].
        -- simpl in Hk. injection Hk as <-.
           f_equal. eapply lineHeldBy_unique; eassumption.
        -- exfalso. apply (Hmin 0%nat c p0); [lia | reflexivity | assumption].
    + rewrite IH. split.
      * intros (k & combo & Hk & Hheld & Hmin). exists (S k), combo.
        split; [assumption|]. split; [assumption|].
        intros [|k'] combo' q Hlt Hk'; simpl in Hk'.
        -- injection Hk' as <-. apply comboWon_false_not_held, Hc.
        -- apply (Hmin k'); [lia | assumption].
      * intros (k & combo & Hk & Hheld & Hmin). destruct k as [|k]; simpl in Hk.
        -- injection Hk as <-. exfalso. eapply comboWon_false_not_held; eassumption.
        -- exists k, combo. split; [assumption|]. split; [assumption|].
           intros k' combo' q Hlt Hk'. apply (Hmin (S k')); [lia | assumption].
Qed.

Lemma checkWinnerFrom_None combos (b : Board) :
  checkWinnerFrom combos b = None <->
  forall combo p, combo ∈ combos -> ~ lineHeldBy b combo p.
Proof.
  induction combos as [|c rest IH]; simpl.
  - split; [|reflexivity]. intros _ combo p Hin. inversion Hin.
  - destruct (comboWon b c) eqn:Hc.
    + apply comboWon_held in Hc as [p0 Hp0]. split.
      * destruct Hp0 as [E _]. rewrite E. discriminate.
      * intros Hall. exfalso. apply (Hall c p0); [left | assumption].
    + rewrite IH. split.
      * intros Hall combo p Hin. apply elem_of_cons in Hin as [-> | Hin].
        -- apply comboWon_false_not_held, Hc.
        -- apply Hall, Hin.
      * intros Hall combo p Hin. apply Hall. right. assumption.
Qed.

(** C6.  [checkWinner] is a total function on arrays of any shape.  It walks
    the eight winning lines in the fixed order rows, columns, diagonals and
    answers with the mark of the first line whose three cells hold one and
    the same mark; it answers "none" exactly when no line is held by a mark.
    With several lines held at once the earliest in the enumeration is the
    one reported. *)
Theorem checkWinner_first_held_line (b : Board) :
  winningCombinations =
    [ (0, 1, 2); (3, 4, 5); (6, 7, 8);
      (0, 3, 6); (1, 4, 7); (2, 5, 8);
      (0, 4, 8); (2, 4, 6) ]%nat
  /\ (forall p,
        checkWinner b = Some p <->
        exists k combo,
          winningCombinations !! k = Some combo /\ lineHeldBy b combo p
          /\ forall k' combo' q,
               (k' < k)%nat -> winningCombinations !! k' = Some combo' ->
               ~ lineHeldBy b combo' q)
  /\ (checkWinner b = None <->
      forall combo p, combo ∈ winningCombinations -> ~ lineHeldBy b combo p).
Proof.
  split; [reflexivity|]. split.
  - intros p. apply checkWinnerFrom_Some.
  - apply checkWinnerFrom_None.
Qed.

(** Two lines held at once, by different marks: the row listed first is
    the one reported. *)
Example checkWinner_two_lines :
  checkWinner [Mark X; Mark X; Mark X; Mark O; Mark O; Mark O;
               Null; Null; Null] = Some X
  /\ checkWinner [Mark O; Null; Mark X; Mark O; Null; Mark X;
                  Mark O; Null; Mark X] = Some O.
Proof. split; reflexivity. Qed.

(** ** Search: the loop over the nine indices and its bound *)

(** The indices the two [for] loops of [minimax] and the loop of
    [getBestMove] act on: those [i < 9] with [board[i] === null]. *)
Definition nullIndices (b : Board) : list nat :=
  filter (fun i => cellAt b i = Null) (seq 0 9).

Definition nullCount (b : Board) : nat := length (nullIndices b).

Lemma isNull_true c : isNull c = true <-> c = Null.
Proof. destruct c; simpl; split; congruence. Qed.

Lemma isNull_false c : c <> Null -> isNull c = false.
Proof. destruct c; simpl; congruence. Qed.

Lemma nullCount_le_9 (b : Board) : (nullCount b <= 9)%nat.
Proof.
  unfold nullCount, nullIndices.
  etransitivity; [apply length_filter|]. rewrite length_seq. reflexivity.
Qed.

Lemma elem_of_nullIndices (b : Board) i :
  i ∈ nullIndices b <-> cellAt b i = Null /\ (i < 9)%nat.
Proof.
  unfold nullIndices. rewrite list_elem_of_filter, elem_of_seq.
  split; intros [? ?]; split; auto; lia.
Qed.

(** Writing a mark on a [null] cell removes exactly that index from the
    candidates, so every child position has strictly fewer of them. *)
Lemma nullIndices_setCell (b : Board) i p :
  cellAt b i = Null ->
  nullIndices (setCell b i (Mark p)) = filter (fun j => j <> i) (nullIndices b).
Proof.
  intros Hnull. pose proof (cellAt_Null_lt _ _ Hnull) as Hlt.
  unfold nullIndices. rewrite list_filter_filter. apply list_filter_iff.
  intros j. destruct (decide (i = j)) as [<-|Hne].
  - rewrite cellAt_setCell_eq by assumption. split; [discriminate|]. intros [? _]. congruence.
  - rewrite cellAt_setCell_ne by assumption. split; [|intros [_ ?]; assumption].
    intros ?. split; [congruence | assumption].
Qed.

Lemma nullCount_setCell (b : Board) i p :
  (i < 9)%nat -> cellAt b i = Null ->
  (nullCount (setCell b i (Mark p)) < nullCount b)%nat.
Proof.
  intros Hi Hnull. unfold nullCount. rewrite nullIndices_setCell by assumption.
  apply length_filter_lt with i.
  - apply elem_of_nullIndices. auto.
  - intros Hne. apply Hne. reflexivity.
Qed.

(** One [for] loop of the search: when the recursive calls it makes return,
    the loop is a fold of the combining function over the candidates. *)
Lemma loop_over_nulls (g : nat -> option Score) (h : nat -> Score)
      (comb : Score -> Score -> Score) (b : Board) (l : list nat) acc :
  (forall i, i ∈ l -> cellAt b i = Null -> g i = Some (h i)) ->
  foldl (fun best i =>
           bestScore ← best;
           if isNull (cellAt b i) then
             score ← g i; Some (comb score bestScore)
           else Some bestScore)
        (Some acc) l
  = Some (foldl (fun best i => comb (h i) best) acc
                (filter (fun i => cellAt b i = Null) l)).
Proof.
  revert acc. induction l as [|i l IH]; intros acc Hg; simpl.
  - reflexivity.
  - destruct (decide (cellAt b i = Null)) as [E|E].
    + rewrite filter_cons_True by assumption.
      rewrite (proj2 (isNull_true _) E), (Hg i) by (assumption || left).
      simpl. apply IH. intros j Hj. apply Hg. right. assumption.
    + rewrite filter_cons_False by assumption.
      rewrite isNull_false by assumption.
      simpl. apply IH. intros j Hj. apply Hg. right. assumption.
Qed.

(** With more levels than candidate cells the bound is never hit, and the
    value does not depend on the bound. *)
Lemma minimax_fuel_enough fuel :
  forall fuel' (b : Board) d m,
    (nullCount b < fuel)%nat -> (nullCount b < fuel')%nat ->
    is_Some (minimax_fuel fuel b d m)
    /\ minimax_fuel fuel b d m = minimax_fuel fuel' b d m.
Proof.
  induction fuel as [|fuel IH]; intros fuel' b d m Hf Hf'; [lia|].
  destruct fuel' as [|fuel']; [lia|]. cbn [minimax_fuel].
  destruct (checkWinner b) as [[|]|]; [split; eauto .. |].
  destruct (isBoardFull b); [split; eauto|].
  assert (forall p m' i, i ∈ seq 0 9 -> cellAt b i = Null ->
            minimax_fuel fuel (setCell b i (Mark p)) (d + 1) m'
            = Some (default (Fin 0)
                      (minimax_fuel fuel (setCell b i (Mark p)) (d + 1) m'))
            /\ minimax_fuel fuel' (setCell b i (Mark p)) (d + 1) m'
            = Some (default (Fin 0)
                      (minimax_fuel fuel (setCell b i (Mark p)) (d + 1) m')))
    as Hchild.
  { intros p m' i Hi Hnull. apply elem_of_seq in Hi.
    pose proof (nullCount_setCell b i p ltac:(lia) Hnull) as Hlt.
    destruct (IH fuel' (setCell b i (Mark p)) (d + 1) m') as [[s Hs] Heq];
      [lia | lia |].
    rewrite <- Heq, Hs. auto. }
  destruct m.
  - rewrite (loop_over_nulls _ _ smax b (seq 0 9) NegInf
               (fun i Hi Hn => proj1 (Hchild O false i Hi Hn))).
    rewrite (loop_over_nulls _ _ smax b (seq 0 9) NegInf
               (fun i Hi Hn => proj2 (Hchild O false i Hi Hn))).
    split; eauto.
  - rewrite (loop_over_nulls _ _ smin b (seq 0 9) PosInf
               (fun i Hi Hn => proj1 (Hchild X true i Hi Hn))).
    rewrite (loop_over_nulls _ _ smin b (seq 0 9) PosInf
               (fun i Hi Hn => proj2 (Hchild X true i Hi Hn))).
    split; eauto.
Qed.

Lemma minimax_fuel_total fuel (b : Board) d m :
  (nullCount b < fuel)%nat ->
  minimax_fuel fuel b d m = Some (minimax b d m).
Proof.
  intros Hf. pose proof (nullCount_le_9 b) as H9.
  destruct (minimax_fuel_enough fuel 10 b d m) as [[s Hs] Heq]; [lia | lia |].
  unfold minimax. rewrite <- Heq, Hs. reflexivity.
Qed.

(** The defining equation of [minimax], free of the bound. *)
Lemma minimax_unfold (b : Board) d m :
  minimax b d m =
  match checkWinner b with
  | Some O => Fin (10 - d)
  | Some X => Fin (d - 10)
  | None =>
      if isBoardFull b then Fin 0
      else if m then
        foldl (fun best i =>
                 smax (minimax (setCell b i (Mark O)) (d + 1) false) best)
              NegInf (nullIndices b)
      else
        foldl (fun best i =>
                 smin (minimax (setCell b i (Mark X)) (d + 1) true) best)
              PosInf (nullIndices b)
  end.
Proof.
  unfold minimax at 1. change 10%nat with (S 9).
  remember 9%nat as fuel eqn:Hfuel. cbn [minimax_fuel].
  destruct (checkWinner b) as [[|]|]; try reflexivity.
  destruct (isBoardFull b); [reflexivity|].
  assert (forall p m' i, i ∈ seq 0 9 -> cellAt b i = Null ->
            minimax_fuel fuel (setCell b i (Mark p)) (d + 1) m'
            = Some (minimax (setCell b i (Mark p)) (d + 1) m')) as Hchild.
  { intros p m' i Hi Hnull. apply elem_of_seq in Hi.
    pose proof (nullCount_setCell b i p ltac:(lia) Hnull) as Hlt.
    pose proof (nullCount_le_9 b).
    apply minimax_fuel_total. lia. }
  destruct m.
  - rewrite (loop_over_nulls _ _ smax b (seq 0 9) NegInf (Hchild O false)).
    reflexivity.
  - rewrite (loop_over_nulls _ _ smin b (seq 0 9) PosInf (Hchild X true)).
    reflexivity.
Qed.

(** ** Order on scores *)

Ltac score_cases :=
  repeat match goal with
         | s : Score |- _ => destruct s
         end;
  unfold sle in *; simpl in *;
  repeat match goal with
         | H : (_ >? _) = _ |- _ => rewrite Z.gtb_ltb in H
         | H : (_ <? _) = true |- _ => apply Z.ltb_lt in H
         | H : (_ <? _) = false |- _ => apply Z.ltb_ge in H
         | |- (_ >? _) = _ => rewrite Z.gtb_ltb
         | |- (_ <? _) = true => apply Z.ltb_lt
         | |- (_ <? _) = false => apply Z.ltb_ge
         end;
  try (congruence || lia).

Lemma sle_refl a : sle a a.
Proof. score_cases. Qed.

Lemma sle_trans a b c : sle a b -> sle b c -> sle a c.
Proof. intros H1 H2. score_cases. Qed.

Lemma sgt_sle_trans a b c : sgt a b = true -> sle c b -> sgt a c = true.
Proof. intros H1 H2. score_cases. Qed.

Lemma sgt_trans a b c : sgt a b = true -> sgt b c = true -> sgt a c = true.
Proof. intros H1 H2. score_cases. Qed.

Lemma sgt_sle a b : sgt a b = true -> sle b a.
Proof. intros H. score_cases. Qed.

Lemma sgt_irrefl a : sgt a a = false.
Proof. score_cases. Qed.

Lemma sle_NegInf a : sle a NegInf -> a = NegInf.
Proof. intros H. score_cases. Qed.

Lemma sle_PosInf a : sle PosInf a -> a = PosInf.
Proof. intros H. score_cases. Qed.

Lemma smax_sle_l a b : sle a (smax a b).
Proof. score_cases. Qed.

Lemma smax_sle_r a b : sle b (smax a b).
Proof. score_cases. Qed.

Lemma smax_cases a b : smax a b = a \/ smax a b = b.
Proof.
  destruct a as [|x|], b as [|y|]; simpl; auto.
  destruct (Z.max_spec x y) as [[_ ->]|[_ ->]]; auto.
Qed.

Lemma smin_sle_l a b : sle (smin a b) a.
Proof. score_cases. Qed.

Lemma smin_sle_r a b : sle (smin a b) b.
Proof. score_cases. Qed.

Lemma smin_cases a b : smin a b = a \/ smin a b = b.
Proof.
  destruct a as [|x|], b as [|y|]; simpl; auto.
  destruct (Z.min_spec x y) as [[_ ->]|[_ ->]]; auto.
Qed.

Lemma sneg_involutive a : sneg (sneg a) = a.
Proof. destruct a; simpl; f_equal; lia. Qed.

Lemma sneg_smax a b : sneg (smax a b) = smin (sneg a) (sneg b).
Proof. destruct a, b; simpl; f_equal; lia. Qed.

Lemma sneg_smin a b : sneg (smin a b) = smax (sneg a) (sneg b).
Proof. destruct a, b; simpl; f_equal; lia. Qed.

(** What a loop [best = Math.max(score, best)] leaves in [best]. *)
Lemma foldl_smax_spec {A} (h : A -> Score) (l : list A) acc :
  let r := foldl (fun best x => smax (h x) best) acc l in
  sle acc r
  /\ (forall x, x ∈ l -> sle (h x) r)
  /\ (r = acc \/ exists x, x ∈ l /\ r = h x).
Proof.
  revert acc. induction l as [|a l IH]; intros acc; simpl.
  - split; [apply sle_refl|]. split; [|auto]. intros x Hx. inversion Hx.
  - destruct (IH (smax (h a) acc)) as (Hacc & Hall & Hatt).
    split; [eapply sle_trans; [apply smax_sle_r | apply Hacc]|]. split.
    + intros x Hx. apply elem_of_cons in Hx as [-> | Hx]; [|auto].
      eapply sle_trans; [apply smax_sle_l | apply Hacc].
    + destruct Hatt as [Hr | (x & Hx & Hr)].
      * destruct (smax_cases (h a) acc) as [E | E].
        -- right. exists a. split; [left | congruence].
        -- left. congruence.
      * right. exists x. split; [right|]; assumption.
Qed.

(** What a loop [best = Math.min(score, best)] leaves in [best]. *)
Lemma foldl_smin_spec {A} (h : A -> Score) (l : list A) acc :
  let r := foldl (fun best x => smin (h x) best) acc l in
  sle r acc
  /\ (forall x, x ∈ l -> sle r (h x))
  /\ (r = acc \/ exists x, x ∈ l /\ r = h x).
Proof.
  revert acc. induction l as [|a l IH]; intros acc; simpl.
  - split; [apply sle_refl|]. split; [|auto]. intros x Hx. inversion Hx.
  - destruct (IH (smin (h a) acc)) as (Hacc & Hall & Hatt).
    split; [eapply sle_trans; [apply Hacc | apply smin_sle_r]|]. split.
    + intros x Hx. apply elem_of_cons in Hx as [-> | Hx]; [|auto].
      eapply sle_trans; [apply Hacc | apply smin_sle_l].
    + destruct Hatt as [Hr | (x & Hx & Hr)].
      * destruct (smin_cases (h a) acc) as [E | E].
        -- right. exists a. split; [left | congruence].
        -- left. congruence.
      * right. exists x. split; [right|]; assumption.
Qed.

Lemma foldl_smax_attained {A} (h : A -> Score) (l : list A) :
  l <> [] ->
  exists x, x ∈ l /\ foldl (fun best x => smax (h x) best) NegInf l = h x.
Proof.
  intros Hne. destruct (foldl_smax_spec h l NegInf) as (_ & Hall & [Hr | Hatt]);
    [|assumption].
  destruct l as [|a l]; [congruence|]. exists a. split; [left|].
  rewrite Hr. symmetry. apply sle_NegInf. rewrite <- Hr. apply Hall. left.
Qed.

Lemma foldl_smin_attained {A} (h : A -> Score) (l : list A) :
  l <> [] ->
  exists x, x ∈ l /\ foldl (fun best x => smin (h x) best) PosInf l = h x.
Proof.
  intros Hne. destruct (foldl_smin_spec h l PosInf) as (_ & Hall & [Hr | Hatt]);
    [|assumption].
  destruct l as [|a l]; [congruence|]. exists a. split; [left|].
  rewrite Hr. symmetry. apply sle_PosInf. rewrite <- Hr. apply Hall. left.
Qed.

(** ** [getEmptyCells] lists the [null] indices in ascending order *)

Lemma filter_fmap_comm {A B} (P : B -> Prop) `{!forall x, Decision (P x)}
      (f : A -> B) (l : list A) :
  filter P (f <$> l) = f <$> filter (fun x => P (f x)) l.
Proof.
  induction l as [|a l IH]; [reflexivity|].
  rewrite fmap_cons, !filter_cons, IH.
  destruct (decide (P (f a))); reflexivity.
Qed.

Lemma filter_imap_nulls k (b : Board) :
  filter (fun index : Z => index <> -1)
         (imap (fun index cell =>
                  if isNull cell then Z.of_nat (k + index) else -1) b)
  = (fun i => Z.of_nat (k + i))
      <$> filter (fun i => cellAt b i = Null) (seq 0 (length b)).
Proof.
  revert k. induction b as [|c b IH]; intros k; [reflexivity|].
  rewrite imap_cons. cbn [length seq]. rewrite <- fmap_S_seq.
  rewrite (imap_ext _ (fun index cell =>
                         if isNull cell then Z.of_nat (S k + index) else -1))
    by (intros i x _; simpl; destruct (isNull x); [f_equal; lia | reflexivity]).
  rewrite filter_cons, IH, (filter_cons _ 0%nat), filter_fmap_comm.
  change (cellAt (c :: b) 0) with c.
  assert ((fun i => Z.of_nat (k + i)) <$>
            (S <$> filter (fun x => cellAt (c :: b) (S x) = Null)
                          (seq 0 (length b)))
          = (fun i => Z.of_nat (S k + i)) <$>
              filter (fun i => cellAt b i = Null) (seq 0 (length b)))
    as Htail.
  { rewrite <- list_fmap_compose. apply list_fmap_ext.
    intros; simpl; f_equal; lia. }
  destruct c; cbn [isNull].
  - rewrite decide_True by lia. rewrite decide_True by reflexivity.
    rewrite fmap_cons, Htail. reflexivity.
  - rewrite decide_False by lia. rewrite decide_False by discriminate.
    rewrite Htail. reflexivity.
  - rewrite decide_False by lia. rewrite decide_False by discriminate.
    rewrite Htail. reflexivity.
Qed.

Lemma getEmptyCells_seq (b : Board) :
  getEmptyCells b
  = Z.of_nat <$> filter (fun i => cellAt b i = Null) (seq 0 (length b)).
Proof. apply (filter_imap_nulls 0 b). Qed.

Lemma getEmptyCells_nullIndices (b : Board) :
  length b = 9%nat -> getEmptyCells b = Z.of_nat <$> nullIndices b.
Proof. intros H. rewrite getEmptyCells_seq, H. reflexivity. Qed.

Lemma elem_of_getEmptyCells (b : Board) z :
  z ∈ getEmptyCells b <-> exists i, z = Z.of_nat i /\ cellAt b i = Null.
Proof.
  rewrite getEmptyCells_seq, list_elem_of_fmap. split.
  - intros (i & -> & Hi). apply list_elem_of_filter in Hi as [Hi _]. eauto.
  - intros (i & -> & Hi). exists i. split; [reflexivity|].
    apply list_elem_of_filter. split; [assumption|].
    apply elem_of_seq. pose proof (cellAt_Null_lt _ _ Hi). lia.
Qed.

Lemma length_getEmptyCells (b : Board) :
  length b = 9%nat -> length (getEmptyCells b) = nullCount b.
Proof.
  intros H. rewrite getEmptyCells_nullIndices by assumption.
  apply length_fmap.
Qed.

Lemma isBoardFull_false (b : Board) :
  isBoardFull b = false -> exists i, cellAt b i = Null.
Proof.
  induction b as [|c b IH]; simpl; [discriminate|].
  destruct c; simpl.
  - intros _. exists 0%nat. reflexivity.
  - intros H. destruct (IH H) as [i Hi]. exists (S i). exact Hi.
  - intros H. destruct (IH H) as [i Hi]. exists (S i). exact Hi.
Qed.

Lemma nullIndices_nonempty (b : Board) :
  length b = 9%nat -> isBoardFull b = false -> nullIndices b <> [].
Proof.
  intros Hlen Hfull Hnil. destruct (isBoardFull_false b Hfull) as [i Hi].
  assert (i ∈ nullIndices b) as Hin.
  { apply elem_of_nullIndices. split; [assumption|].
    pose proof (cellAt_Null_lt _ _ Hi). lia. }
  rewrite Hnil in Hin. inversion Hin.
Qed.

Lemma foldl_ext_eq {A B} (f g : A -> B -> A) (l : list B) a :
  (forall a x, f a x = g a x) -> foldl f a l = foldl g a l.
Proof.
  intros H. revert a. induction l as [|x l IH]; intros a; simpl; [reflexivity|].
  rewrite H. apply IH.
Qed.

(** The score of the position reached by writing [p] at index [z], one ply
    deeper, with the role [m] of the player who answers. *)
Definition childScore (b : Board) (d : Z) (p : Player) (m : bool) (z : Z)
  : Score :=
  minimax (setCell b (Z.to_nat z) (Mark p)) (d + 1) m.

Lemma childScore_of_nat (b : Board) d p m i :
  childScore b d p m (Z.of_nat i) = minimax (setCell b i (Mark p)) (d + 1) m.
Proof. unfold childScore. rewrite Nat2Z.id. reflexivity. Qed.

Lemma foldl_children (comb : Score -> Score -> Score) (b : Board) d p m acc :
  length b = 9%nat ->
  foldl (fun best i => comb (minimax (setCell b i (Mark p)) (d + 1) m) best)
        acc (nullIndices b)
  = foldl (fun best z => comb (childScore b d p m z) best)
          acc (getEmptyCells b).
Proof.
  intros Hlen. rewrite getEmptyCells_nullIndices, foldl_fmap by assumption.
  apply foldl_ext_eq. intros a i. rewrite childScore_of_nat. reflexivity.
Qed.

(** C1.  On a board of nine cells [minimax] returns [10 - depth] when 'O'
    (the maximizer) has won, [depth - 10] when 'X' (the minimizer) has won,
    [0] when the board is full without a winner; otherwise it visits every
    empty index in ascending order, writes 'O' there on a maximizing ply
    (resp. 'X' on a minimizing ply), scores the child at [depth + 1] with the
    other role, and folds the child scores with [Math.max] from [-Infinity]
    (resp. [Math.min] from [Infinity]): the result is the greatest (resp.
    least) child score. *)
Theorem minimax_cases (b : Board) (depth : Z) (isMaximizing : bool) :
  length b = 9%nat ->
  (checkWinner b = Some O -> minimax b depth isMaximizing = Fin (10 - depth))
  /\ (checkWinner b = Some X -> minimax b depth isMaximizing = Fin (depth - 10))
  /\ (checkWinner b = None -> isBoardFull b = true ->
      minimax b depth isMaximizing = Fin 0)
  /\ (checkWinner b = None -> isBoardFull b = false ->
      (minimax b depth true
       = foldl (fun best z => smax (childScore b depth O false z) best)
               NegInf (getEmptyCells b)
       /\ (forall z, z ∈ getEmptyCells b ->
             sle (childScore b depth O false z) (minimax b depth true))
       /\ (exists z, z ∈ getEmptyCells b
                     /\ minimax b depth true = childScore b depth O false z))
      /\
      (minimax b depth false
       = foldl (fun best z => smin (childScore b depth X true z) best)
               PosInf (getEmptyCells b)
       /\ (forall z, z ∈ getEmptyCells b ->
             sle (minimax b depth false) (childScore b depth X true z))
       /\ (exists z, z ∈ getEmptyCells b
                     /\ minimax b depth false = childScore b depth X true z))).
Proof.
  intros Hlen.
  split; [intros Hw; rewrite minimax_unfold, Hw; reflexivity|].
  split; [intros Hw; rewrite minimax_unfold, Hw; reflexivity|].
  split; [intros Hw Hf; rewrite minimax_unfold, Hw, Hf; reflexivity|].
  intros Hw Hf.
  assert (getEmptyCells b <> []) as Hne.
  { rewrite getEmptyCells_nullIndices by assumption.
    intros E. apply fmap_nil_inv in E.
    exact (nullIndices_nonempty b Hlen Hf E). }
  split.
  - assert (minimax b depth true
            = foldl (fun best z => smax (childScore b depth O false z) best)
                    NegInf (getEmptyCells b)) as Heq.
    { rewrite minimax_unfold, Hw, Hf. apply foldl_children, Hlen. }
    split; [exact Heq|]. rewrite Heq. split.
    + apply (foldl_smax_spec (childScore b depth O false)).
    + apply foldl_smax_attained, Hne.
  - assert (minimax b depth false
            = foldl (fun best z => smin (childScore b depth X true z) best)
                    PosInf (getEmptyCells b)) as Heq.
    { rewrite minimax_unfold, Hw, Hf. apply foldl_children, Hlen. }
    split; [exact Heq|]. rewrite Heq. split.
    + apply (foldl_smin_spec (childScore b depth X true)).
    + apply foldl_smin_attained, Hne.
Qed.

Lemma minimax_cases_witness :
  exists z, z ∈ getEmptyCells emptyBoard
            /\ minimax emptyBoard 0 true = childScore emptyBoard 0 O false z.
Proof.
  destruct (minimax_cases emptyBoard 0 true eq_refl) as (_ & _ & _ & H).
  destruct (H eq_refl eq_refl) as [(_ & _ & Hex) _]. exact Hex.
Defined.

(** ** Termination of the search *)

(** C10.  On a board of nine cells the search terminates.  Each recursive
    call of [minimax] is made on the board obtained by writing a mark on an
    empty index, which is again a board of nine cells and has strictly fewer
    empty cells; there are at most nine of them, so a nesting of calls one
    deeper than the number of empty cells is never exceeded and [minimax]
    returns a score whatever the depth argument and the role flag. *)
Theorem minimax_terminates (b : Board) (depth : Z) (isMaximizing : bool) :
  length b = 9%nat ->
  (length (getEmptyCells b) <= 9)%nat
  /\ (forall z p,
        z ∈ getEmptyCells b ->
        length (setCell b (Z.to_nat z) (Mark p)) = 9%nat
        /\ (length (getEmptyCells (setCell b (Z.to_nat z) (Mark p)))
            < length (getEmptyCells b))%nat)
  /\ (forall fuel,
        (length (getEmptyCells b) < fuel)%nat ->
        minimax_fuel fuel b depth isMaximizing
        = Some (minimax b depth isMaximizing)).
Proof.
  intros Hlen. rewrite length_getEmptyCells by assumption.
  split; [apply nullCount_le_9|]. split.
  - intros z p Hz. apply elem_of_getEmptyCells in Hz as (i & -> & Hi).
    rewrite Nat2Z.id. pose proof (cellAt_Null_lt _ _ Hi) as Hlt.
    assert (length (setCell b i (Mark p)) = 9%nat) as Hlen'
      by (rewrite length_setCell_in_range; assumption).
    split; [assumption|].
    rewrite length_getEmptyCells by assumption.
    apply nullCount_setCell; [lia | assumption].
  - intros fuel Hfuel. apply minimax_fuel_total, Hfuel.
Qed.

Lemma minimax_terminates_witness :
  minimax_fuel 10 emptyBoard 0 false = Some (minimax emptyBoard 0 false).
Proof.
  destruct (minimax_terminates emptyBoard 0 false eq_refl) as (_ & _ & H).
  apply H. vm_compute. lia.
Defined.

(** ** Relabelling the marks *)

Definition swapCell (c : Cell) : Cell :=
  match c with
  | Mark p => Mark (otherPlayer p)
  | Null => Null
  | Undefined => Undefined
  end.

(** Every 'X' becomes 'O' and every 'O' becomes 'X'. *)
Definition swapBoard (b : Board) : Board := swapCell <$> b.

Lemma swapCell_inj c c' : swapCell c = swapCell c' -> c = c'.
Proof.
  destruct c as [|[|]|], c' as [|[|]|]; simpl; congruence.
Qed.

Lemma cellAt_swapBoard (b : Board) i :
  cellAt (swapBoard b) i = swapCell (cellAt b i).
Proof.
  unfold cellAt, swapBoard. rewrite list_lookup_fmap.
  destruct (b !! i); reflexivity.
Qed.

Lemma comboWon_swapBoard (b : Board) combo :
  comboWon (swapBoard b) combo = comboWon b combo.
Proof.
  destruct combo as [[a1 a2] a3]. unfold comboWon, cell_eqb.
  rewrite !cellAt_swapBoard.
  f_equal; [f_equal|].
  - destruct (cellAt b a1); reflexivity.
  - apply bool_decide_ext. split; [apply swapCell_inj | congruence].
  - apply bool_decide_ext. split; [apply swapCell_inj | congruence].
Qed.

Lemma checkWinnerFrom_swapBoard combos (b : Board) :
  checkWinnerFrom combos (swapBoard b)
  = otherPlayer <$> checkWinnerFrom combos b.
Proof.
  induction combos as [|c rest IH]; simpl; [reflexivity|].
  rewrite comboWon_swapBoard, cellAt_swapBoard, IH.
  destruct (comboWon b c); [|reflexivity].
  destruct (cellAt b (fst (fst c))); reflexivity.
Qed.

Lemma checkWinner_swapBoard (b : Board) :
  checkWinner (swapBoard b) = otherPlayer <$> checkWinner b.
Proof. apply checkWinnerFrom_swapBoard. Qed.

Lemma isBoardFull_swapBoard (b : Board) :
  isBoardFull (swapBoard b) = isBoardFull b.
Proof.
  induction b as [|c b IH]; [reflexivity|].
  change (isBoardFull (swapBoard (c :: b)))
    with (negb (isNull (swapCell c)) && isBoardFull (swapBoard b)).
  rewrite IH. destruct c; reflexivity.
Qed.

Lemma setCell_swapBoard (b : Board) i p :
  setCell (swapBoard b) i (Mark (otherPlayer p))
  = swapBoard (setCell b i (Mark p)).
Proof.
  unfold setCell, swapBoard. rewrite length_fmap.
  destruct (decide (i < length b)%nat).
  - rewrite list_fmap_insert. reflexivity.
  - rewrite !fmap_app, fmap_replicate. reflexivity.
Qed.

Lemma loop_swapBoard (g g' : nat -> option Score)
      (comb comb' : Score -> Score -> Score) (b : Board) (l : list nat) best :
  (forall i, g' i = sneg <$> g i) ->
  (forall x y, comb' (sneg x) (sneg y) = sneg (comb x y)) ->
  foldl (fun best i =>
           bestScore ← best;
           if isNull (cellAt (swapBoard b) i) then
             score ← g' i; Some (comb' score bestScore)
           else Some bestScore)
        (sneg <$> best) l
  = sneg <$> foldl (fun best i =>
                      bestScore ← best;
                      if isNull (cellAt b i) then
                        score ← g i; Some (comb score bestScore)
                      else Some bestScore)
                   best l.
Proof.
  intros Hg Hcomb. revert best.
  induction l as [|i l IHl]; intros best; [reflexivity|]. simpl.
  rewrite <- IHl. f_equal.
  destruct best as [bestScore|]; [|reflexivity]. simpl.
  rewrite cellAt_swapBoard, Hg.
  destruct (cellAt b i); simpl; try reflexivity.
  destruct (g i); simpl; [|reflexivity].
  rewrite Hcomb. reflexivity.
Qed.

Lemma minimax_fuel_swapBoard fuel :
  forall (b : Board) d m,
    minimax_fuel fuel (swapBoard b) d (negb m)
    = sneg <$> minimax_fuel fuel b d m.
Proof.
  induction fuel as [|fuel IH]; intros b d m; [reflexivity|].
  cbn [minimax_fuel]. rewrite checkWinner_swapBoard, isBoardFull_swapBoard.
  destruct (checkWinner b) as [[|]|];
    [simpl; do 2 f_equal; lia | simpl; do 2 f_equal; lia |].
  cbn [fmap option_fmap option_map].
  destruct (isBoardFull b); [reflexivity|].
  destruct m; cbn [negb].
  - apply (loop_swapBoard
             (fun i => minimax_fuel fuel (setCell b i (Mark O)) (d + 1) false)
             (fun i => minimax_fuel fuel (setCell (swapBoard b) i (Mark X))
                                    (d + 1) true)
             smax smin b (seq 0 9) (Some NegInf)).
    + intros i. change (Mark X) with (Mark (otherPlayer O)).
      rewrite (setCell_swapBoard b i O). apply (IH _ _ false).
    + intros x y. symmetry. apply sneg_smax.
  - apply (loop_swapBoard
             (fun i => minimax_fuel fuel (setCell b i (Mark X)) (d + 1) true)
             (fun i => minimax_fuel fuel (setCell (swapBoard b) i (Mark O))
                                    (d + 1) false)
             smin smax b (seq 0 9) (Some PosInf)).
    + intros i. change (Mark O) with (Mark (otherPlayer X)).
      rewrite (setCell_swapBoard b i X). apply (IH _ _ true).
    + intros x y. symmetry. apply sneg_smin.
Qed.

Lemma minimax_swapBoard (b : Board) d m :
  minimax (swapBoard b) d (negb m) = sneg (minimax b d m).
Proof.
  pose proof (minimax_fuel_swapBoard 10 b d m) as H.
  pose proof (nullCount_le_9 b) as Hb.
  pose proof (nullCount_le_9 (swapBoard b)) as Hs.
  rewrite !minimax_fuel_total in H by lia.
  cbn [fmap option_fmap option_map] in H. injection H as ->. reflexivity.
Qed.

(** C7.  Relabel every 'O' as 'X' and every 'X' as 'O', exchange the
    maximizing and minimizing roles, and negate the score obtained: the
    result is the score of the original board, at every depth. *)
Theorem minimax_relabel_negate (b : Board) (depth : Z) (isMaximizing : bool) :
  sneg (minimax (swapBoard b) depth (negb isMaximizing))
  = minimax b depth isMaximizing.
Proof. rewrite minimax_swapBoard. apply sneg_involutive. Qed.

(** ** Move selection *)

(** On a board of nine cells the score is always a finite number. *)
Lemma minimax_finite n :
  forall (b : Board) d m,
    (nullCount b < n)%nat -> length b = 9%nat ->
    exists z, minimax b d m = Fin z.
Proof.
  induction n as [|n IH]; intros b d m Hn Hlen; [lia|].
  rewrite minimax_unfold.
  destruct (checkWinner b) as [[|]|]; eauto.
  destruct (isBoardFull b) eqn:Hfull; eauto.
  pose proof (nullIndices_nonempty b Hlen Hfull) as Hne.
  assert (forall i p m', i ∈ nullIndices b ->
            exists z, minimax (setCell b i (Mark p)) (d + 1) m' = Fin z)
    as Hchild.
  { intros i p m' Hi. apply elem_of_nullIndices in Hi as [Hnull Hi].
    pose proof (nullCount_setCell b i p Hi Hnull).
    apply IH; [lia|].
    rewrite length_setCell_in_range; [assumption|].
    apply cellAt_Null_lt, Hnull. }
  destruct m.
  - destruct (foldl_smax_attained
                (fun i => minimax (setCell b i (Mark O)) (d + 1) false)
                (nullIndices b) Hne) as (i & Hi & ->).
    apply Hchild, Hi.
  - destruct (foldl_smin_attained
                (fun i => minimax (setCell b i (Mark X)) (d + 1) true)
                (nullIndices b) Hne) as (i & Hi & ->).
    apply Hchild, Hi.
Qed.

(** The loop of [getBestMove] over the indices [s .. s+n-1], started with
    [(bs, bm)]: either no candidate beat [bs] and the pair is unchanged, or
    the pair is the first candidate that is strictly better than everything
    before it and at least as good as everything after it. *)
Definition bestMoveStep (P : nat -> bool) (h : nat -> Score)
           (st : Score * Z) (i : nat) : Score * Z :=
  let '(bestScore, bestMove) := st in
  if P i then
    let score := h i in
    if sgt score bestScore then (score, Z.of_nat i)
    else (bestScore, bestMove)
  else (bestScore, bestMove).

Lemma bestMove_loop (P : nat -> bool) (h : nat -> Score) n :
  forall s bs bm,
    let st := foldl (bestMoveStep P h) (bs, bm) (seq s n) in
    (st = (bs, bm)
     /\ forall y, (s <= y < s + n)%nat -> P y = true -> sle (h y) bs)
    \/ (exists x,
          (s <= x < s + n)%nat /\ P x = true
          /\ st = (h x, Z.of_nat x)
          /\ sgt (h x) bs = true
          /\ (forall y, (s <= y < x)%nat -> P y = true -> sgt (h x) (h y) = true)
          /\ (forall y, (x <= y < s + n)%nat -> P y = true -> sle (h y) (h x))).
Proof.
  induction n as [|n IH]; intros s bs bm; cbn [seq foldl].
  - left. split; [reflexivity|]. intros; lia.
  - assert (bestMoveStep P h (bs, bm) s
            = if P s then
                if sgt (h s) bs then (h s, Z.of_nat s) else (bs, bm)
              else (bs, bm)) as -> by reflexivity.
    destruct (P s) eqn:HP; [destruct (sgt (h s) bs) eqn:Hgt|].
    + right. destruct (IH (S s) (h s) (Z.of_nat s))
        as [[-> Hall] | (x & Hx & HPx & -> & Hgtx & Hbefore & Hafter)].
      * exists s. split; [lia|]. split; [assumption|]. split; [reflexivity|].
        split; [assumption|]. split; [intros; lia|].
        intros y Hy HPy. destruct (decide (y = s)) as [->|];
          [apply sle_refl | apply Hall; [lia | assumption]].
      * exists x. split; [lia|]. split; [assumption|]. split; [reflexivity|].
        split; [eapply sgt_trans; eassumption|]. split; [|intros y Hy HPy; apply Hafter; [lia | assumption]].
        intros y Hy HPy. destruct (decide (y = s)) as [->|];
          [assumption | apply Hbefore; [lia | assumption]].
    + destruct (IH (S s) bs bm)
        as [[-> Hall] | (x & Hx & HPx & -> & Hgtx & Hbefore & Hafter)].
      * left. split; [reflexivity|].
        intros y Hy HPy. destruct (decide (y = s)) as [->|];
          [assumption | apply Hall; [lia | assumption]].
      * right. exists x. split; [lia|]. split; [assumption|].
        split; [reflexivity|]. split; [assumption|]. split; [|intros y Hy HPy; apply Hafter; [lia | assumption]].
        intros y Hy HPy. destruct (decide (y = s)) as [->|];
          [eapply sgt_sle_trans; eassumption | apply Hbefore; [lia | assumption]].
    + destruct (IH (S s) bs bm)
        as [[-> Hall] | (x & Hx & HPx & -> & Hgtx & Hbefore & Hafter)].
      * left. split; [reflexivity|].
        intros y Hy HPy. destruct (decide (y = s)) as [->|];
          [congruence | apply Hall; [lia | assumption]].
      * right. exists x. split; [lia|]. split; [assumption|].
        split; [reflexivity|]. split; [assumption|]. split; [|intros y Hy HPy; apply Hafter; [lia | assumption]].
        intros y Hy HPy. destruct (decide (y = s)) as [->|];
          [congruence | apply Hbefore; [lia | assumption]].
Qed.

(** The score [getBestMove] gives to the candidate index [z]. *)
Definition moveScore (b : Board) (z : Z) : Score :=
  minimax (setCell b (Z.to_nat z) (Mark O)) 0 false.

(** C2.  On a board of nine cells with at least one empty cell,
    [getBestMove] returns the index of an empty cell, between 0 and 8, and
    never the sentinel [-1]; that cell has the greatest score among the
    empty cells and is the one of smallest index with that score. *)
Theorem getBestMove_first_best (b : Board) :
  length b = 9%nat ->
  getEmptyCells b <> [] ->
  getBestMove b <> -1
  /\ 0 <= getBestMove b <= 8
  /\ getBestMove b ∈ getEmptyCells b
  /\ cellAt b (Z.to_nat (getBestMove b)) = Null
  /\ (forall z, z ∈ getEmptyCells b ->
        sle (moveScore b z) (moveScore b (getBestMove b)))
  /\ (forall z, z ∈ getEmptyCells b ->
        moveScore b z = moveScore b (getBestMove b) -> getBestMove b <= z).
Proof.
  intros Hlen Hne.
  assert (forall i, isNull (cellAt b i) = true ->
            exists z, minimax (setCell b i (Mark O)) 0 false = Fin z) as Hfin.
  { intros i Hi. apply isNull_true in Hi.
    pose proof (cellAt_Null_lt _ _ Hi) as Hlt.
    apply (minimax_finite 10); [|rewrite length_setCell_in_range; assumption].
    pose proof (nullCount_le_9 (setCell b i (Mark O))). lia. }
  unfold getBestMove.
  change (foldl _ (NegInf, -1) (seq 0 9))
    with (foldl (bestMoveStep (fun i => isNull (cellAt b i))
                   (fun i => minimax (setCell b i (Mark O)) 0 false))
                (NegInf, -1) (seq 0 9)).
  destruct (bestMove_loop (fun i => isNull (cellAt b i))
              (fun i => minimax (setCell b i (Mark O)) 0 false)
              9 0%nat NegInf (-1))
    as [[_ Hall] | (x & Hx & HPx & -> & Hgtx & Hbefore & Hafter)].
  - exfalso. destruct (getEmptyCells b) as [|z l] eqn:E; [congruence|].
    assert (z ∈ getEmptyCells b) as Hz by (rewrite E; left).
    apply elem_of_getEmptyCells in Hz as (i & -> & Hi).
    pose proof (cellAt_Null_lt _ _ Hi) as Hlt.
    apply isNull_true in Hi. destruct (Hfin i Hi) as [v Hv].
    specialize (Hall i ltac:(lia) Hi). cbv beta in Hall.
    rewrite Hv in Hall. discriminate.
  - cbn [snd]. pose proof HPx as Hnull. apply isNull_true in Hnull.
    split; [lia|]. split; [lia|].
    split; [apply elem_of_getEmptyCells; eauto|].
    rewrite Nat2Z.id. split; [assumption|].
    unfold moveScore. rewrite Nat2Z.id. split.
    + intros z Hz. apply elem_of_getEmptyCells in Hz as (i & -> & Hi).
      rewrite Nat2Z.id. pose proof (cellAt_Null_lt _ _ Hi) as Hlt.
      apply isNull_true in Hi.
      destruct (decide (i < x)%nat).
      * apply sgt_sle. apply (Hbefore i); [lia | assumption].
      * apply (Hafter i); [lia | assumption].
    + intros z Hz. apply elem_of_getEmptyCells in Hz as (i & -> & Hi).
      rewrite Nat2Z.id. pose proof (cellAt_Null_lt _ _ Hi) as Hlt.
      apply isNull_true in Hi. intros Heq.
      destruct (decide (i < x)%nat) as [Hix|]; [|lia].
      specialize (Hbefore i ltac:(lia) Hi). cbv beta in Hbefore.
      revert Heq Hbefore.
      generalize (minimax (setCell b i (Mark O)) 0 false)
                 (minimax (setCell b x (Mark O)) 0 false).
      intros s1 s2 -> Hgt. rewrite sgt_irrefl in Hgt. discriminate.
Qed.

Lemma getBestMove_first_best_witness :
  getBestMove [Mark X; Mark O; Mark X; Mark O; Mark X; Mark O; Mark O; Mark X; Null]
  <> -1.
Proof.
  refine (proj1 (getBestMove_first_best
                   [Mark X; Mark O; Mark X; Mark O; Mark X; Mark O;
                    Mark O; Mark X; Null] eq_refl _)).
  vm_compute. discriminate.
Defined.

(** Without any assumption on the array, [getBestMove] returns either the
    sentinel or an index below 9 that holds [null]. *)
Lemma getBestMove_sentinel_or_null (b : Board) :
  getBestMove b = -1
  \/ exists x, (x < 9)%nat /\ getBestMove b = Z.of_nat x /\ cellAt b x = Null.
Proof.
  unfold getBestMove.
  change (foldl _ (NegInf, -1) (seq 0 9))
    with (foldl (bestMoveStep (fun i => isNull (cellAt b i))
                   (fun i => minimax (setCell b i (Mark O)) 0 false))
                (NegInf, -1) (seq 0 9)).
  destruct (bestMove_loop (fun i => isNull (cellAt b i))
              (fun i => minimax (setCell b i (Mark O)) 0 false)
              9 0%nat NegInf (-1))
    as [[-> _] | (x & Hx & HPx & -> & _)].
  - left. reflexivity.
  - right. exists x. split; [lia|]. split; [reflexivity|].
    apply isNull_true, HPx.
Qed.

(** The selector used for 'X' in self-play is the source's [getBestMove]
    run on the relabelled board: one and the same search plays both sides. *)
Lemma sgt_sneg_swap a b : sgt (sneg a) b = sgt (sneg b) a.
Proof.
  destruct a as [|x|], b as [|y|]; simpl; try reflexivity.
  rewrite !Z.gtb_ltb. destruct (Z.ltb_spec y (- x)), (Z.ltb_spec x (- y));
    try reflexivity; lia.
Qed.

Lemma getBestMoveX_relabel (b : Board) :
  getBestMoveX b = getBestMove (swapBoard b).
Proof.
  unfold getBestMoveX, getBestMove.
  change (PosInf, -1) with (sneg NegInf, -1).
  generalize NegInf (-1). generalize (seq 0 9). intros l.
  induction l as [|i l IH]; intros bs bm; [reflexivity|].
  cbn [foldl]. rewrite cellAt_swapBoard.
  change (Mark O) with (Mark (otherPlayer X)).
  rewrite (setCell_swapBoard b i X).
  change false with (negb true). rewrite minimax_swapBoard.
  unfold slt. rewrite (sgt_sneg_swap bs).
  destruct (cellAt b i); cbn [isNull swapCell]; try apply IH.
  destruct (sgt (sneg (minimax (setCell b i (Mark X)) 0 true)) bs);
    [|apply IH].
  rewrite <- IH, sneg_involutive. reflexivity.
Qed.

(** ** Session *)

Lemma board_settleMove nb next s : board (settleMove nb next s) = nb.
Proof.
  unfold settleMove. destruct (checkWinner nb); [reflexivity|].
  destruct (isBoardFull nb); reflexivity.
Qed.

(** The computer always writes on a [null] cell of the board it is given. *)
Lemma computerMove_is_empty_cell r (cb : Board) s :
  (getEmptyCells cb = [] /\ VsComputer.makeComputerMove r cb s = s)
  \/ (exists i,
        cellAt cb i = Null
        /\ (getBestMove cb <> -1 -> getBestMove cb = Z.of_nat i)
        /\ VsComputer.makeComputerMove r cb s
           = settleMove (setCell cb i (Mark O)) X s).
Proof.
  unfold VsComputer.makeComputerMove.
  destruct (decide (length (getEmptyCells cb) = 0%nat)) as [Hlen|Hlen].
  - left. split; [|reflexivity]. destruct (getEmptyCells cb); [reflexivity|discriminate].
  - right. destruct (decide (getBestMove cb = -1)) as [Hbm|Hbm].
    + assert (getEmptyCells cb
                !!! VsComputer.randomIndex r (length (getEmptyCells cb))
              ∈ getEmptyCells cb) as Hin.
      { apply list_elem_of_lookup_total_2. unfold VsComputer.randomIndex.
        apply Nat.mod_upper_bound. assumption. }
      apply elem_of_getEmptyCells in Hin as (i & Hi & Hnull).
      exists i. rewrite Hi, Nat2Z.id. split; [assumption|]. split; [congruence|].
      reflexivity.
    + destruct (getBestMove_sentinel_or_null cb) as [|(x & _ & Hx & Hnull)];
        [congruence|].
      exists x. rewrite Hx, Nat2Z.id. auto.
Qed.

(** The board invariant of the data model: nine cells, none of them a hole. *)
Definition boardOk (b : Board) : Prop :=
  length b = 9%nat /\ Forall (fun c => c <> Undefined) b.

(** Every mark of [b] is still there, unchanged, in [b']. *)
Definition marksKept (b b' : Board) : Prop :=
  forall i p, cellAt b i = Mark p -> cellAt b' i = Mark p.

Lemma boardOk_emptyBoard : boardOk emptyBoard.
Proof.
  split; [reflexivity|]. apply Forall_replicate. discriminate.
Qed.

Lemma boardOk_setCell (b : Board) i p :
  boardOk b -> (i < 9)%nat -> boardOk (setCell b i (Mark p)).
Proof.
  intros [Hlen Hall] Hi. split.
  - rewrite length_setCell_in_range; [assumption | lia].
  - rewrite setCell_in_range by lia. apply Forall_insert; [assumption|discriminate].
Qed.

Lemma marksKept_refl (b : Board) : marksKept b b.
Proof. intros i p H. exact H. Qed.

(** Writing on a falsy cell (one that holds no mark) keeps every mark. *)
Lemma marksKept_setCell (b : Board) i v :
  truthy (cellAt b i) = false -> marksKept b (setCell b i v).
Proof.
  intros Hfalsy j p Hj.
  assert (i <> j) as Hne by (intros ->; rewrite Hj in Hfalsy; discriminate).
  pose proof Hj as Hlt. unfold cellAt in Hlt.
  destruct (b !! j) as [c|] eqn:Hlook; [|discriminate].
  apply lookup_lt_Some in Hlook.
  unfold setCell. destruct (decide (i < length b)%nat).
  - rewrite <- Hj. unfold cellAt.
    rewrite list_lookup_insert_ne by assumption. reflexivity.
  - rewrite <- Hj. unfold cellAt. rewrite lookup_app_l by assumption.
    reflexivity.
Qed.

(** The win counter of [w], and only it, went up by one. *)
Definition winCounted (w : Player) (st st' : GameStats) : Prop :=
  match w with
  | X => xWins st' = xWins st + 1 /\ oWins st' = oWins st
         /\ draws st' = draws st
  | O => oWins st' = oWins st + 1 /\ xWins st' = xWins st
         /\ draws st' = draws st
  end.

(** The draw counter, and only it, went up by one. *)
Definition drawCounted (st st' : GameStats) : Prop :=
  draws st' = draws st + 1 /\ xWins st' = xWins st /\ oWins st' = oWins st.

(** How a move that took the session from [s] to [s'] was settled: a winning
    line on the new board means [Won], whether or not the board is full;
    [Draw] is entered exactly when the new board is full and has no winning
    line. *)
Definition winBeforeDraw (s s' : Session) : Prop :=
  (forall w, checkWinner (board s') = Some w ->
     gameState s' = Won /\ winner s' = Some w
     /\ winCounted w (stats s) (stats s'))
  /\ (gameState s' = Draw ->
      checkWinner (board s') = None /\ isBoardFull (board s') = true
      /\ drawCounted (stats s) (stats s'))
  /\ (checkWinner (board s') = None -> isBoardFull (board s') = true ->
      gameState s' = Draw).

Lemma settleMove_winBeforeDraw nb next s :
  gameState s = Playing -> winBeforeDraw s (settleMove nb next s).
Proof.
  intros Hplay. unfold winBeforeDraw. rewrite board_settleMove.
  unfold settleMove.
  destruct (checkWinner nb) as [w|] eqn:Hw; [|destruct (isBoardFull nb) eqn:Hf];
    cbn [gameState winner stats].
  - split; [|split; [discriminate | discriminate]].
    intros w' [= <-]. split; [reflexivity|]. split; [reflexivity|].
    destruct w; simpl; auto.
  - split; [discriminate|]. split; [|reflexivity].
    intros _. split; [reflexivity|]. split; [reflexivity|].
    unfold drawCounted. simpl. auto.
  - split; [discriminate|]. split; [|discriminate].
    rewrite Hplay. discriminate.
Qed.

(** C3.  In an in-progress game every accepted move -- a click in the
    two-player variant, a click of 'X' or the computer's move in the
    player-versus-computer variant -- is settled with the win test first: if
    the new board has a winning line the phase becomes [Won], the winner is
    recorded and its counter incremented, even when the new board is full;
    the phase becomes [Draw], with the draw counter incremented, exactly when
    the new board is full and has no winning line. *)
Theorem win_evaluated_before_draw (s : Session) :
  gameState s = Playing ->
  (forall index,
     truthy (cellAt (board s) index) = false ->
     winBeforeDraw s (TwoPlayer.handleCellClick index s))
  /\ (forall index,
        truthy (cellAt (board s) index) = false -> currentPlayer s = X ->
        winBeforeDraw s (VsComputer.handleCellClick index s))
  /\ (forall r,
        currentPlayer s = O -> getEmptyCells (board s) <> [] ->
        winBeforeDraw s (VsComputer.computerTurn r s)).
Proof.
  intros Hplay. split; [|split].
  - intros index Hfree. unfold TwoPlayer.handleCellClick.
    rewrite Hfree, Hplay. apply settleMove_winBeforeDraw, Hplay.
  - intros index Hfree Hx. unfold VsComputer.handleCellClick.
    rewrite Hfree, Hplay, Hx. apply settleMove_winBeforeDraw, Hplay.
  - intros r Ho Hne. unfold VsComputer.computerTurn. rewrite Ho, Hplay.
    cbn [bool_decide decide_rel andb].
    destruct (computerMove_is_empty_cell r (board s) s)
      as [[Hnil _] | (i & _ & _ & ->)]; [congruence|].
    apply settleMove_winBeforeDraw, Hplay.
Qed.

(** A position in which 'X' completes a diagonal with the last free cell. *)
Definition lastCellWins : Session :=
  {| board := [Mark X; Mark O; Mark X;
               Mark O; Mark X; Mark O;
               Mark O; Mark X; Null];
     currentPlayer := X; gameState := Playing; winner := None;
     stats := mkStats 0 0 0 |}.

Lemma win_evaluated_before_draw_witness :
  isBoardFull (board (TwoPlayer.handleCellClick 8 lastCellWins)) = true
  /\ winBeforeDraw lastCellWins (TwoPlayer.handleCellClick 8 lastCellWins).
Proof.
  split; [reflexivity|].
  exact (proj1 (win_evaluated_before_draw lastCellWins eq_refl) 8%nat eq_refl).
Defined.

(** C4, as amended.  A click on a cell that already holds a mark, or a click
    while the game is not in progress, changes nothing in either variant:
    board, phase, player to move and statistics are those of before. *)
Theorem rejected_click_is_noop (s : Session) (index : nat) :
  truthy (cellAt (board s) index) = true \/ gameState s <> Playing ->
  TwoPlayer.handleCellClick index s = s
  /\ VsComputer.handleCellClick index s = s.
Proof.
  intros H. unfold TwoPlayer.handleCellClick, VsComputer.handleCellClick.
  destruct H as [-> | Hne]; [split; reflexivity|].
  rewrite (bool_decide_eq_false_2 _ Hne), orb_true_r. split; reflexivity.
Qed.

Lemma rejected_click_is_noop_witness :
  TwoPlayer.handleCellClick 0 lastCellWins = lastCellWins
  /\ VsComputer.handleCellClick 0 lastCellWins = lastCellWins.
Proof.
  apply (rejected_click_is_noop lastCellWins 0%nat). left. reflexivity.
Defined.

(** In the player-versus-computer variant a click is also dropped while it
    is the computer's turn. *)
Lemma click_out_of_turn_is_noop (s : Session) (index : nat) :
  currentPlayer s <> X -> VsComputer.handleCellClick index s = s.
Proof.
  intros Hne. unfold VsComputer.handleCellClick.
  rewrite (bool_decide_eq_false_2 _ Hne), orb_true_r. reflexivity.
Qed.

(** C4 as stated fails: index 9 is outside [0,8], yet on a fresh session
    the click is not rejected.  The handler has no range test; [board[9]] is
    [undefined], hence falsy, so the array grows to ten elements and the turn
    passes to 'O'. *)
Lemma click_at_index_9_is_not_rejected :
  ~ (9 <= 8)%nat
  /\ TwoPlayer.handleCellClick 9 newSession
     = {| board := [Null; Null; Null; Null; Null; Null; Null; Null; Null;
                    Mark X];
          currentPlayer := O; gameState := Playing; winner := None;
          stats := mkStats 0 0 0 |}
  /\ TwoPlayer.handleCellClick 9 newSession <> newSession
  /\ VsComputer.handleCellClick 9 newSession <> newSession.
Proof.
  split; [lia|]. split; [reflexivity|]. split; discriminate.
Qed.

Lemma settleMove_keeps_board (b : Board) i p next s :
  boardOk b -> (i < 9)%nat -> truthy (cellAt b i) = false ->
  boardOk (board (settleMove (setCell b i (Mark p)) next s))
  /\ marksKept b (board (settleMove (setCell b i (Mark p)) next s)).
Proof.
  intros Hok Hi Hfalsy. rewrite board_settleMove. split.
  - apply boardOk_setCell; assumption.
  - apply marksKept_setCell, Hfalsy.
Qed.

(** A move handler never overwrites a mark: the cell written is falsy. *)
Lemma marksKept_settleMove (b : Board) i p next s :
  truthy (cellAt b i) = false ->
  marksKept b (board (settleMove (setCell b i (Mark p)) next s)).
Proof.
  intros Hfalsy. rewrite board_settleMove. apply marksKept_setCell, Hfalsy.
Qed.

Lemma length_settleMove (b : Board) i p next s :
  (i < length b)%nat ->
  length (board (settleMove (setCell b i (Mark p)) next s)) = length b.
Proof.
  intros Hi. rewrite board_settleMove. apply length_setCell_in_range, Hi.
Qed.

(** C5, as amended.  For every state, every index and every random draw, a
    click (either variant), the computer's move and [resetStats] leave each
    mark of the board where it was: a non-empty cell never changes and never
    reverts to empty; only [resetGame] clears cells.  A board of nine cells
    stays a board of nine cells under a click at an index between 0 and 8
    (either variant), the computer's move and [resetStats], and [resetGame]
    always yields nine empty cells; the same holds with "nine cells, none of
    them a hole". *)
Theorem session_operations_keep_the_board (s : Session) (index r : nat) :
  (marksKept (board s) (board (TwoPlayer.handleCellClick index s))
   /\ marksKept (board s) (board (VsComputer.handleCellClick index s))
   /\ marksKept (board s) (board (VsComputer.computerTurn r s))
   /\ marksKept (board s) (board (resetStats s)))
  /\ (length (board s) = 9%nat ->
      ((index < 9)%nat ->
       length (board (TwoPlayer.handleCellClick index s)) = 9%nat
       /\ length (board (VsComputer.handleCellClick index s)) = 9%nat)
      /\ length (board (VsComputer.computerTurn r s)) = 9%nat
      /\ length (board (resetStats s)) = 9%nat)
  /\ (boardOk (board s) ->
      ((index < 9)%nat ->
       boardOk (board (TwoPlayer.handleCellClick index s))
       /\ boardOk (board (VsComputer.handleCellClick index s)))
      /\ boardOk (board (VsComputer.computerTurn r s))
      /\ boardOk (board (resetStats s)))
  /\ board (resetGame s) = emptyBoard
  /\ boardOk (board (resetGame s))
  /\ board (resetStats s) = board s.
Proof.
  assert (forall P : Board -> Prop,
            P (board s) ->
            (forall p next,
               truthy (cellAt (board s) index) = false ->
               P (board (settleMove (setCell (board s) index (Mark p))
                                    next s))) ->
            P (board (TwoPlayer.handleCellClick index s))
            /\ P (board (VsComputer.handleCellClick index s))) as Hclick.
  { intros P Hs Hmove.
    unfold TwoPlayer.handleCellClick, VsComputer.handleCellClick.
    destruct (truthy (cellAt (board s) index)) eqn:Hfalsy;
      [split; exact Hs|].
    destruct (negb (bool_decide (gameState s = Playing)));
      [split; exact Hs|].
    split; [apply Hmove; reflexivity|].
    destruct (negb (bool_decide (currentPlayer s = X))); [exact Hs|].
    apply Hmove; reflexivity. }
  assert (forall P : Board -> Prop,
            P (board s) ->
            (forall i next,
               cellAt (board s) i = Null ->
               P (board (settleMove (setCell (board s) i (Mark O)) next s))) ->
            P (board (VsComputer.computerTurn r s))) as Hcomputer.
  { intros P Hs Hmove. unfold VsComputer.computerTurn.
    destruct (bool_decide (currentPlayer s = O)
              && bool_decide (gameState s = Playing)); [|exact Hs].
    destruct (computerMove_is_empty_cell r (board s) s)
      as [[_ ->] | (i & Hnull & _ & ->)]; [exact Hs|].
    apply Hmove, Hnull. }
  split; [|split; [|split; [|split; [|split]]]].
  - destruct (Hclick (marksKept (board s)) (marksKept_refl _)) as [H1 H2].
    { intros p next Hfalsy. apply marksKept_settleMove, Hfalsy. }
    split; [exact H1|]. split; [exact H2|]. split; [|apply marksKept_refl].
    apply Hcomputer; [apply marksKept_refl|].
    intros i next Hnull. apply marksKept_settleMove.
    rewrite Hnull. reflexivity.
  - intros Hlen. split; [|split; [|exact Hlen]].
    + intros Hi. apply (Hclick (fun b => length b = 9%nat) Hlen).
      intros p next _. rewrite length_settleMove; [exact Hlen | lia].
    + apply (Hcomputer (fun b => length b = 9%nat) Hlen).
      intros i next Hnull. rewrite length_settleMove; [exact Hlen|].
      apply cellAt_Null_lt, Hnull.
  - intros Hok. split; [|split; [|exact Hok]].
    + intros Hi. apply (Hclick boardOk Hok).
      intros p next Hfalsy.
      apply settleMove_keeps_board; assumption.
    + apply (Hcomputer boardOk Hok).
      intros i next Hnull. pose proof (cellAt_Null_lt _ _ Hnull) as Hlt.
      apply settleMove_keeps_board; [assumption | destruct Hok; lia |].
      rewrite Hnull. reflexivity.
  - reflexivity.
  - apply boardOk_emptyBoard.
  - reflexivity.
Qed.

(** At a position with eight marks on the board: the ninth click keeps all
    eight and leaves a board of nine cells. *)
Lemma session_operations_keep_the_board_witness :
  marksKept (board lastCellWins)
            (board (TwoPlayer.handleCellClick 8 lastCellWins))
  /\ cellAt (board (TwoPlayer.handleCellClick 8 lastCellWins)) 1 = Mark O
  /\ boardOk (board (TwoPlayer.handleCellClick 8 lastCellWins)).
Proof.
  destruct (session_operations_keep_the_board lastCellWins 8 0)
    as ((Hkept & _) & _ & Hok & _).
  split; [exact Hkept|]. split; [apply Hkept; reflexivity|].
  apply Hok; [|lia].
  split; [reflexivity|]. repeat constructor; discriminate.
Defined.

(** Marks are kept even by the click that breaks the shape of the board:
    at index 9, outside the board, nothing that was marked is touched. *)
Example marks_kept_out_of_range :
  marksKept (board lastCellWins)
            (board (TwoPlayer.handleCellClick 9 lastCellWins)).
Proof.
  intros i p Hi.
  do 9 (destruct i as [|i]; [vm_compute in Hi |- *; exact Hi|]).
  vm_compute in Hi. discriminate Hi.
Qed.

(** C5 as stated fails for the human move: the click at index 9 on a fresh
    session turns the board of nine cells into one of ten. *)
Lemma click_at_index_9_lengthens_the_board :
  length (board newSession) = 9%nat
  /\ length (board (TwoPlayer.handleCellClick 9 newSession)) = 10%nat
  /\ length (board (VsComputer.handleCellClick 9 newSession)) = 10%nat
  /\ ~ boardOk (board (TwoPlayer.handleCellClick 9 newSession)).
Proof.
  split; [reflexivity|]. split; [reflexivity|]. split; [reflexivity|].
  intros [Hlen _]. discriminate Hlen.
Qed.

(** ** Scenarios *)

(** 'O' on 0 and 1, 'X' on 3 and 4. *)
Definition twoInARow : Board :=
  [Mark O; Mark O; Null; Mark X; Mark X; Null; Null; Null; Null].

(** C8.  On the board with 'O' on 0 and 1 and 'X' on 3 and 4, with 'O' (the
    computer) to move, [getBestMove] selects index 2 and the computer's move
    ends the game as won by 'O', whose counter goes up by one. *)
Theorem computer_completes_its_row (r : nat) (w : option Player)
        (st : GameStats) :
  getBestMove twoInARow = 2
  /\ VsComputer.computerTurn r
       {| board := twoInARow; currentPlayer := O; gameState := Playing;
          winner := w; stats := st |}
     = {| board := [Mark O; Mark O; Mark O; Mark X; Mark X; Null;
                    Null; Null; Null];
          currentPlayer := O; gameState := Won; winner := Some O;
          stats := mkStats (xWins st) (oWins st + 1) (draws st) |}.
Proof.
  assert (getBestMove twoInARow = 2) as Hbest by (vm_compute; reflexivity).
  split; [exact Hbest|].
  unfold VsComputer.computerTurn, VsComputer.makeComputerMove.
  cbn [currentPlayer gameState board]. rewrite Hbest. reflexivity.
Qed.

(** An in-progress session of the player-versus-computer variant with 'X'
    to move and nothing counted yet. *)
Definition inProgress (b : Board) : Session :=
  {| board := b; currentPlayer := X; gameState := Playing; winner := None;
     stats := mkStats 0 0 0 |}.

(** The boards after each of the first four rounds of self-play. *)
Definition round1 : Board :=
  [Mark X; Null; Null; Null; Mark O; Null; Null; Null; Null].
Definition round2 : Board :=
  [Mark X; Mark X; Mark O; Null; Mark O; Null; Null; Null; Null].
Definition round3 : Board :=
  [Mark X; Mark X; Mark O; Mark O; Mark O; Null; Mark X; Null; Null].
Definition round4 : Board :=
  [Mark X; Mark X; Mark O; Mark O; Mark O; Mark X; Mark X; Mark O; Null].

Lemma selfPlay_round1 r :
  selfPlayRound r newSession = inProgress round1.
Proof. vm_compute. reflexivity. Qed.

Lemma selfPlay_round2 r :
  selfPlayRound r (inProgress round1) = inProgress round2.
Proof. vm_compute. reflexivity. Qed.

Lemma selfPlay_round3 r :
  selfPlayRound r (inProgress round2) = inProgress round3.
Proof. vm_compute. reflexivity. Qed.

Lemma selfPlay_round4 r :
  selfPlayRound r (inProgress round3) = inProgress round4.
Proof. vm_compute. reflexivity. Qed.

Lemma selfPlay_round5 r :
  selfPlayRound r (inProgress round4)
  = {| board := [Mark X; Mark X; Mark O;
                 Mark O; Mark O; Mark X;
                 Mark X; Mark O; Mark X];
       currentPlayer := X; gameState := Draw; winner := None;
       stats := mkStats 0 0 1 |}.
Proof. vm_compute. reflexivity. Qed.

Lemma minimax_emptyBoard : minimax emptyBoard 0 false = Fin 0.
Proof. vm_compute. reflexivity. Qed.

Lemma selfPlay_S r n s :
  selfPlay r (S n) s = selfPlay r n (selfPlayRound r s).
Proof. reflexivity. Qed.

Lemma selfPlay_0 r s : selfPlay r 0 s = s.
Proof. reflexivity. Qed.

(** C9.  From the empty board, with 'X' always clicking the cell chosen by
    [getBestMoveX] and the computer always answering with [getBestMove], the
    game stays in progress without a winner for four rounds and the fifth
    move of 'X' ends it in [Draw] with one draw counted and no win; the value
    [minimax] gives the empty board with 'X' to move is 0. *)
Theorem optimal_self_play_is_a_draw (r : nat) :
  minimax emptyBoard 0 false = Fin 0
  /\ (forall n, (n < 5)%nat ->
        gameState (selfPlay r n newSession) = Playing
        /\ winner (selfPlay r n newSession) = None
        /\ stats (selfPlay r n newSession) = mkStats 0 0 0)
  /\ selfPlay r 5 newSession
     = {| board := [Mark X; Mark X; Mark O;
                    Mark O; Mark O; Mark X;
                    Mark X; Mark O; Mark X];
          currentPlayer := X; gameState := Draw; winner := None;
          stats := mkStats 0 0 1 |}.
Proof.
  split; [exact minimax_emptyBoard|]. split.
  - intros n Hn.
    destruct n as [|[|[|[|[|n]]]]]; [| | | | | lia].
    + rewrite selfPlay_0. repeat split.
    + rewrite selfPlay_S, selfPlay_round1, selfPlay_0. repeat split.
    + rewrite selfPlay_S, selfPlay_round1, selfPlay_S, selfPlay_round2,
        selfPlay_0. repeat split.
    + rewrite selfPlay_S, selfPlay_round1, selfPlay_S, selfPlay_round2,
        selfPlay_S, selfPlay_round3, selfPlay_0. repeat split.
    + rewrite selfPlay_S, selfPlay_round1, selfPlay_S, selfPlay_round2,
        selfPlay_S, selfPlay_round3, selfPlay_S, selfPlay_round4, selfPlay_0.
      repeat split.
  - rewrite selfPlay_S, selfPlay_round1, selfPlay_S, selfPlay_round2,
      selfPlay_S, selfPlay_round3, selfPlay_S, selfPlay_round4, selfPlay_S,
      selfPlay_round5, selfPlay_0.
    reflexivity.
Qed.

(** * Further properties of the code *)

(** ** [isBoardFull] and [getEmptyCells] *)

(** [isBoardFull] answers [true] exactly when [getEmptyCells] finds nothing,
    whatever the length of the array. *)
Theorem isBoardFull_iff_no_empty_cell (b : Board) :
  isBoardFull b = true <-> getEmptyCells b = [].
Proof.
  split.
  - intros Hfull. destruct (getEmptyCells b) as [|z l] eqn:E; [reflexivity|].
    exfalso. assert (z ∈ getEmptyCells b) as Hz by (rewrite E; left).
    apply elem_of_getEmptyCells in Hz as (i & _ & Hi).
    unfold cellAt in Hi. destruct (b !! i) as [c|] eqn:Hlook; [|discriminate].
    simpl in Hi. subst c.
    apply list_elem_of_lookup_2, list_elem_of_In in Hlook.
    unfold isBoardFull in Hfull.
    pose proof (proj1 (forallb_forall _ _) Hfull Null Hlook) as Hn.
    discriminate Hn.
  - intros Hnil. destruct (isBoardFull b) eqn:Hfull; [reflexivity|].
    destruct (isBoardFull_false b Hfull) as [i Hi].
    assert (Z.of_nat i ∈ getEmptyCells b) as Hin
      by (apply elem_of_getEmptyCells; eauto).
    rewrite Hnil in Hin. inversion Hin.
Qed.

Lemma StronglySorted_seq s n : StronglySorted lt (seq s n).
Proof.
  revert s. induction n as [|n IH]; intros s; simpl; constructor.
  - apply IH.
  - apply Forall_forall. intros x Hx. apply elem_of_seq in Hx. lia.
Qed.

Lemma StronglySorted_filter {A} (R : A -> A -> Prop) (P : A -> Prop)
      `{!forall x, Decision (P x)} (l : list A) :
  StronglySorted R l -> StronglySorted R (filter P l).
Proof.
  induction 1 as [|x l Hsorted IH Hall]; [constructor|].
  rewrite filter_cons. destruct (decide (P x)); [|assumption].
  constructor; [assumption|].
  apply Forall_forall. intros y Hy. apply list_elem_of_filter in Hy as [_ Hy].
  rewrite Forall_forall in Hall. apply Hall, Hy.
Qed.

(** [getEmptyCells] returns the indices of the [null] cells, each once, in
    strictly increasing order, whatever the length of the array. *)
Theorem getEmptyCells_sorted_null_indices (b : Board) :
  StronglySorted Z.lt (getEmptyCells b)
  /\ (forall z,
        z ∈ getEmptyCells b <->
        0 <= z < Z.of_nat (length b) /\ cellAt b (Z.to_nat z) = Null).
Proof.
  split.
  - rewrite getEmptyCells_seq. apply (StronglySorted_fmap _ lt).
    + intros x y Hxy. lia.
    + apply StronglySorted_filter, StronglySorted_seq.
  - intros z. rewrite elem_of_getEmptyCells. split.
    + intros (i & -> & Hi). rewrite Nat2Z.id.
      pose proof (cellAt_Null_lt _ _ Hi). split; [lia | assumption].
    + intros [Hz Hnull]. exists (Z.to_nat z). split; [lia | assumption].
Qed.

(** ** The score is bounded by the depth *)

Lemma minimax_bounds n :
  forall (b : Board) d m,
    (nullCount b < n)%nat -> length b = 9%nat ->
    0 <= d -> d + Z.of_nat (nullCount b) <= 10 ->
    exists z, minimax b d m = Fin z /\ d - 10 <= z <= 10 - d.
Proof.
  induction n as [|n IH]; intros b d m Hn Hlen Hd Hsum; [lia|].
  rewrite minimax_unfold.
  destruct (checkWinner b) as [[|]|];
    [eexists; split; [reflexivity | lia] .. |].
  destruct (isBoardFull b) eqn:Hfull; [eexists; split; [reflexivity | lia]|].
  pose proof (nullIndices_nonempty b Hlen Hfull) as Hne.
  assert (forall i p m', i ∈ nullIndices b ->
            exists z, minimax (setCell b i (Mark p)) (d + 1) m' = Fin z
                      /\ d - 10 <= z <= 10 - d) as Hchild.
  { intros i p m' Hi. apply elem_of_nullIndices in Hi as [Hnull Hi].
    pose proof (nullCount_setCell b i p Hi Hnull).
    destruct (IH (setCell b i (Mark p)) (d + 1) m') as (z & Hz & Hb);
      [lia | | lia | lia |].
    - rewrite length_setCell_in_range; [assumption|].
      apply cellAt_Null_lt, Hnull.
    - exists z. split; [assumption | lia]. }
  destruct m.
  - destruct (foldl_smax_attained
                (fun i => minimax (setCell b i (Mark O)) (d + 1) false)
                (nullIndices b) Hne) as (i & Hi & ->).
    apply Hchild, Hi.
  - destruct (foldl_smin_attained
                (fun i => minimax (setCell b i (Mark X)) (d + 1) true)
                (nullIndices b) Hne) as (i & Hi & ->).
    apply Hchild, Hi.
Qed.

(** On a board of nine cells, for a depth [d >= 0] with [d] plus the number
    of empty cells at most 10 (as in every call made from [getBestMove]),
    the score is a finite number between [d - 10] and [10 - d]. *)
Theorem minimax_between_minus_and_plus_10 (b : Board) (depth : Z)
        (isMaximizing : bool) :
  length b = 9%nat ->
  0 <= depth ->
  depth + Z.of_nat (length (getEmptyCells b)) <= 10 ->
  exists z, minimax b depth isMaximizing = Fin z
            /\ depth - 10 <= z <= 10 - depth.
Proof.
  intros Hlen Hd Hsum. rewrite length_getEmptyCells in Hsum by assumption.
  apply (minimax_bounds (S (nullCount b))); (assumption || lia).
Qed.

Lemma minimax_between_minus_and_plus_10_witness :
  exists z, minimax emptyBoard 1 true = Fin z /\ 1 - 10 <= z <= 10 - 1.
Proof.
  apply (minimax_between_minus_and_plus_10 emptyBoard 1 true eq_refl);
    [lia | vm_compute; discriminate].
Defined.

(** ** What [getBestMove] picks *)

Lemma getEmptyCells_nonempty_of_null (b : Board) i :
  cellAt b i = Null -> getEmptyCells b <> [].
Proof.
  intros Hi Hnil.
  assert (Z.of_nat i ∈ getEmptyCells b) as Hin
    by (apply elem_of_getEmptyCells; eauto).
  rewrite Hnil in Hin. inversion Hin.
Qed.

(** On a board of nine cells with an empty cell the loop of [getBestMove]
    ends on an empty cell whose score no other empty cell exceeds. *)
Lemma getBestMove_choice (b : Board) :
  length b = 9%nat -> getEmptyCells b <> [] ->
  exists x,
    (x < 9)%nat /\ getBestMove b = Z.of_nat x /\ cellAt b x = Null
    /\ forall j, cellAt b j = Null ->
                 sle (minimax (setCell b j (Mark O)) 0 false)
                     (minimax (setCell b x (Mark O)) 0 false).
Proof.
  intros Hlen Hne. unfold getBestMove.
  change (foldl _ (NegInf, -1) (seq 0 9))
    with (foldl (bestMoveStep (fun i => isNull (cellAt b i))
                   (fun i => minimax (setCell b i (Mark O)) 0 false))
                (NegInf, -1) (seq 0 9)).
  destruct (bestMove_loop (fun i => isNull (cellAt b i))
              (fun i => minimax (setCell b i (Mark O)) 0 false)
              9 0%nat NegInf (-1))
    as [[_ Hall] | (x & Hx & HPx & -> & Hgtx & Hbefore & Hafter)].
  - exfalso. destruct (getEmptyCells b) as [|z l] eqn:E; [congruence|].
    assert (z ∈ getEmptyCells b) as Hz by (rewrite E; left).
    apply elem_of_getEmptyCells in Hz as (i & -> & Hi).
    pose proof (cellAt_Null_lt _ _ Hi) as Hlt.
    destruct (minimax_finite 10 (setCell b i (Mark O)) 0 false) as [v Hv].
    + pose proof (nullCount_le_9 (setCell b i (Mark O))). lia.
    + rewrite length_setCell_in_range; assumption.
    + specialize (Hall i ltac:(lia) (proj2 (isNull_true _) Hi)).
      cbv beta in Hall. rewrite Hv in Hall. discriminate.
  - exists x. cbn [snd]. split; [lia|]. split; [reflexivity|].
    split; [apply isNull_true, HPx|].
    intros j Hj. pose proof (cellAt_Null_lt _ _ Hj) as Hlt.
    apply isNull_true in Hj.
    destruct (decide (j < x)%nat).
    + apply sgt_sle. apply (Hbefore j); [lia | assumption].
    + apply (Hafter j); [lia | assumption].
Qed.

(** On a board of nine cells [getBestMove] returns the sentinel [-1] exactly
    when no cell is empty; so the random fallback of [makeComputerMove] is
    never taken and the computer's move does not depend on the random
    draw. *)
Theorem random_fallback_never_taken (b : Board) :
  length b = 9%nat ->
  (getBestMove b = -1 <-> getEmptyCells b = [])
  /\ (forall r r' s,
        VsComputer.makeComputerMove r b s = VsComputer.makeComputerMove r' b s).
Proof.
  intros Hlen.
  assert (getBestMove b = -1 <-> getEmptyCells b = []) as Hiff.
  { split.
    - intros Hm. destruct (getEmptyCells b) as [|z l] eqn:E; [reflexivity|].
      destruct (getBestMove_choice b Hlen) as (x & _ & Hx & _);
        [rewrite E; discriminate | lia].
    - intros Hnil.
      destruct (getBestMove_sentinel_or_null b) as [|(x & _ & _ & Hnull)];
        [assumption|].
      exfalso. exact (getEmptyCells_nonempty_of_null b x Hnull Hnil). }
  split; [exact Hiff|].
  intros r r' s. unfold VsComputer.makeComputerMove.
  destruct (decide (length (getEmptyCells b) = 0%nat)) as [|Hne];
    [reflexivity|].
  destruct (decide (getBestMove b = -1)) as [Hm|]; [|reflexivity].
  apply Hiff in Hm. rewrite Hm in Hne. contradiction Hne. reflexivity.
Qed.

Lemma random_fallback_never_taken_witness :
  VsComputer.makeComputerMove 0 emptyBoard newSession
  = VsComputer.makeComputerMove 7 emptyBoard newSession.
Proof.
  exact (proj2 (random_fallback_never_taken emptyBoard eq_refl)
               0%nat 7%nat newSession).
Defined.

(** The fallback is not dead code on every array: with ten cells of which
    only the last is empty, the loop over 0..8 finds nothing and the sentinel
    comes back although a cell is empty. *)
Example getBestMove_sentinel_on_long_array :
  getBestMove [Mark X; Mark O; Mark X; Mark O; Mark X; Mark O;
               Mark O; Mark X; Mark O; Null] = -1
  /\ getEmptyCells [Mark X; Mark O; Mark X; Mark O; Mark X; Mark O;
                    Mark O; Mark X; Mark O; Null] = [9].
Proof. split; reflexivity. Qed.

(** A position scores the full 10 at depth 0 only if 'O' has already won
    on it. *)
Lemma minimax_10_is_a_win (b : Board) m :
  length b = 9%nat -> minimax b 0 m = Fin 10 -> checkWinner b = Some O.
Proof.
  intros Hlen. rewrite minimax_unfold.
  destruct (checkWinner b) as [[|]|]; [discriminate | reflexivity |].
  destruct (isBoardFull b) eqn:Hfull; [discriminate|].
  pose proof (nullIndices_nonempty b Hlen Hfull) as Hne.
  assert (forall i p m', i ∈ nullIndices b ->
            minimax (setCell b i (Mark p)) (0 + 1) m' <> Fin 10) as Hchild.
  { intros i p m' Hi. apply elem_of_nullIndices in Hi as [Hnull Hi].
    pose proof (nullCount_setCell b i p Hi Hnull).
    pose proof (nullCount_le_9 b).
    destruct (minimax_bounds 10 (setCell b i (Mark p)) (0 + 1) m')
      as (z & Hz & Hb); [lia | | lia | lia |].
    - rewrite length_setCell_in_range; [assumption|].
      apply cellAt_Null_lt, Hnull.
    - rewrite Hz. intros [= ->]. lia. }
  destruct m.
  - destruct (foldl_smax_attained
                (fun i => minimax (setCell b i (Mark O)) (0 + 1) false)
                (nullIndices b) Hne) as (i & Hi & ->).
    intros H. exfalso. exact (Hchild i O false Hi H).
  - destruct (foldl_smin_attained
                (fun i => minimax (setCell b i (Mark X)) (0 + 1) true)
                (nullIndices b) Hne) as (i & Hi & ->).
    intros H. exfalso. exact (Hchild i X true Hi H).
Qed.

(** If some empty cell completes a line for 'O', the computer's move wins
    the game at once: on a board of nine cells, with 'O' to move in a game
    in progress, [computerTurn] ends in [Won] with winner 'O'. *)
Theorem computer_takes_an_immediate_win (r : nat) (s : Session) (i : nat) :
  length (board s) = 9%nat ->
  currentPlayer s = O -> gameState s = Playing ->
  cellAt (board s) i = Null ->
  checkWinner (setCell (board s) i (Mark O)) = Some O ->
  gameState (VsComputer.computerTurn r s) = Won
  /\ winner (VsComputer.computerTurn r s) = Some O
  /\ checkWinner (board (VsComputer.computerTurn r s)) = Some O.
Proof.
  intros Hlen Ho Hplay Hnull Hwin.
  pose proof (getEmptyCells_nonempty_of_null _ _ Hnull) as Hne.
  destruct (getBestMove_choice (board s) Hlen Hne)
    as (x & Hx & Hbest & Hxnull & Hmax).
  assert (checkWinner (setCell (board s) x (Mark O)) = Some O) as Hxwin.
  { pose proof (cellAt_Null_lt _ _ Hxnull) as Hlt.
    assert (length (setCell (board s) x (Mark O)) = 9%nat) as Hlen'
      by (rewrite length_setCell_in_range; assumption).
    apply (minimax_10_is_a_win _ false Hlen').
    specialize (Hmax i Hnull).
    rewrite (minimax_unfold (setCell (board s) i (Mark O))), Hwin in Hmax.
    destruct (minimax_bounds 10 (setCell (board s) x (Mark O)) 0 false)
      as (z & Hz & Hb); [|assumption|lia| |].
    - pose proof (nullCount_le_9 (setCell (board s) x (Mark O))). lia.
    - pose proof (nullCount_setCell (board s) x O Hx Hxnull).
      pose proof (nullCount_le_9 (board s)). lia.
    - rewrite Hz in Hmax |- *. unfold sle in Hmax. simpl in Hmax.
      rewrite Z.gtb_ltb in Hmax. apply Z.ltb_ge in Hmax. f_equal. lia. }
  unfold VsComputer.computerTurn.
  rewrite (bool_decide_eq_true_2 _ Ho), (bool_decide_eq_true_2 _ Hplay).
  cbn [andb].
  destruct (computerMove_is_empty_cell r (board s) s)
    as [[Hnil _] | (k & _ & Hk & ->)]; [congruence|].
  assert (k = x) as -> by (specialize (Hk ltac:(lia)); lia).
  rewrite board_settleMove. unfold settleMove. rewrite Hxwin.
  cbn [gameState winner]. auto.
Qed.

(** 'O' to move on [twoInARow]. *)
Definition computerToComplete : Session :=
  {| board := twoInARow; currentPlayer := O; gameState := Playing;
     winner := None; stats := mkStats 0 0 0 |}.

Lemma computer_takes_an_immediate_win_witness :
  gameState (VsComputer.computerTurn 0 computerToComplete) = Won.
Proof.
  exact (proj1 (computer_takes_an_immediate_win 0 computerToComplete 2%nat
                  eq_refl eq_refl eq_refl eq_refl eq_refl)).
Defined.

(** ** Rendering helpers of the two components *)

(** [`${winner}`] for [winner : Player | null] inside a template literal. *)
Definition showWinner (w : option Player) : string :=
  match w with Some X => "X" | Some O => "O" | None => "null" end.

(** [`${currentPlayer}`] *)
Definition showPlayer (p : Player) : string :=
  match p with X => "X" | O => "O" end.

(** The two-player component (lines 81-96 and 126). *)
Module TwoPlayerUI.

(** [getCellValue]: [board[index] || ''] *)
Definition getCellValue (index : nat) (s : Session) : string :=
  match cellAt (board s) index with
  | Mark p => showPlayer p
  | _ => ""
  end.

(** [getStatusMessage] *)
Definition getStatusMessage (s : Session) : string :=
  match gameState s with
  | Won => String.append "Player " (String.append (showWinner (winner s)) " wins!")
  | Draw => "It's a draw!"
  | Playing =>
      String.append "Player " (String.append (showPlayer (currentPlayer s)) "'s turn")
  end.

(** The [disabled] attribute of the button of cell [index]:
    [!!cell || gameState !== 'playing']. *)
Definition buttonDisabled (index : nat) (s : Session) : bool :=
  truthy (cellAt (board s) index)
  || negb (bool_decide (gameState s = Playing)).

End TwoPlayerUI.

(** The player-versus-computer component (lines 352-367 and 400). *)
Module VsComputerUI.

(** [getCellValue]: [board[index] || ''] *)
Definition getCellValue (index : nat) (s : Session) : string :=
  match cellAt (board s) index with
  | Mark p => showPlayer p
  | _ => ""
  end.

(** [getStatusMessage] *)
Definition getStatusMessage (s : Session) : string :=
  match gameState s with
  | Won => if bool_decide (winner s = Some X) then "You win!"
           else "Computer wins!"
  | Draw => "It's a draw!"
  | Playing => if bool_decide (currentPlayer s = X) then "Your turn"
               else "Computer thinking..."
  end.

(** The [disabled] attribute of the button of cell [index]:
    [!!cell || gameState !== 'playing' || currentPlayer !== 'X']. *)
Definition buttonDisabled (index : nat) (s : Session) : bool :=
  truthy (cellAt (board s) index)
  || negb (bool_decide (gameState s = Playing))
  || negb (bool_decide (currentPlayer s = X)).

End VsComputerUI.

(** ** The states the components can reach

    The buttons are produced by [board.map], so a click carries an index
    below [board.length]; the other entry points are the two reset buttons
    and, in the second component, the timer that calls [makeComputerMove]. *)

Inductive TwoPlayerReachable : Session -> Prop :=
| tp_init : TwoPlayerReachable newSession
| tp_click s index :
    TwoPlayerReachable s -> (index < length (board s))%nat ->
    TwoPlayerReachable (TwoPlayer.handleCellClick index s)
| tp_resetGame s : TwoPlayerReachable s -> TwoPlayerReachable (resetGame s)
| tp_resetStats s : TwoPlayerReachable s -> TwoPlayerReachable (resetStats s).

Inductive VsComputerReachable : Session -> Prop :=
| vc_init : VsComputerReachable newSession
| vc_click s index :
    VsComputerReachable s -> (index < length (board s))%nat ->
    VsComputerReachable (VsComputer.handleCellClick index s)
| vc_timer s r :
    VsComputerReachable s -> VsComputerReachable (VsComputer.computerTurn r s)
| vc_resetGame s : VsComputerReachable s -> VsComputerReachable (resetGame s)
| vc_resetStats s : VsComputerReachable s -> VsComputerReachable (resetStats s).

(** The three move handlers, seen as one case analysis: the state is left
    as it is, or a mark was written on a falsy cell of the board of a game
    in progress and the move was settled. *)
Lemma twoPlayer_click_cases index s :
  TwoPlayer.handleCellClick index s = s
  \/ (gameState s = Playing /\ truthy (cellAt (board s) index) = false
      /\ TwoPlayer.handleCellClick index s
         = settleMove (setCell (board s) index (Mark (currentPlayer s)))
                      (otherPlayer (currentPlayer s)) s).
Proof.
  unfold TwoPlayer.handleCellClick.
  destruct (truthy (cellAt (board s) index)); [left; reflexivity|].
  destruct (decide (gameState s = Playing)) as [Hp|Hp].
  - rewrite (bool_decide_eq_true_2 _ Hp). right. auto.
  - rewrite (bool_decide_eq_false_2 _ Hp). left. reflexivity.
Qed.

Lemma vsComputer_click_cases index s :
  VsComputer.handleCellClick index s = s
  \/ (gameState s = Playing /\ currentPlayer s = X
      /\ truthy (cellAt (board s) index) = false
      /\ VsComputer.handleCellClick index s
         = settleMove (setCell (board s) index (Mark X)) O s).
Proof.
  unfold VsComputer.handleCellClick.
  destruct (truthy (cellAt (board s) index)); [left; reflexivity|].
  destruct (decide (gameState s = Playing)) as [Hp|Hp];
    [|rewrite (bool_decide_eq_false_2 _ Hp); left; reflexivity].
  destruct (decide (currentPlayer s = X)) as [Hx|Hx];
    [|rewrite (bool_decide_eq_false_2 _ Hx), orb_true_r; left; reflexivity].
  rewrite (bool_decide_eq_true_2 _ Hp), (bool_decide_eq_true_2 _ Hx).
  right. auto.
Qed.

Lemma computerTurn_cases r s :
  VsComputer.computerTurn r s = s
  \/ (gameState s = Playing /\ currentPlayer s = O
      /\ exists i,
           cellAt (board s) i = Null
           /\ (getBestMove (board s) <> -1 ->
               getBestMove (board s) = Z.of_nat i)
           /\ VsComputer.computerTurn r s
              = settleMove (setCell (board s) i (Mark O)) X s).
Proof.
  unfold VsComputer.computerTurn.
  destruct (decide (currentPlayer s = O)) as [Ho|Ho];
    [|rewrite (bool_decide_eq_false_2 _ Ho); left; reflexivity].
  destruct (decide (gameState s = Playing)) as [Hp|Hp];
    [|rewrite (bool_decide_eq_false_2 _ Hp), andb_false_r; left; reflexivity].
  rewrite (bool_decide_eq_true_2 _ Ho), (bool_decide_eq_true_2 _ Hp).
  cbn [andb].
  destruct (computerMove_is_empty_cell r (board s) s)
    as [[_ ->] | (i & Hi & Hbest & ->)]; [left; reflexivity|].
  right. split; [assumption|]. split; [assumption|]. exists i. auto.
Qed.

(** *** The board always has nine cells *)

Lemma null_is_falsy c : c = Null -> truthy c = false.
Proof. intros ->. reflexivity. Qed.

Lemma twoPlayer_reachable_boardOk s :
  TwoPlayerReachable s -> boardOk (board s).
Proof.
  induction 1 as [|s index H IH Hi|s H IH|s H IH].
  - apply boardOk_emptyBoard.
  - destruct (twoPlayer_click_cases index s) as [-> | (_ & Hf & ->)];
      [assumption|].
    apply settleMove_keeps_board; [assumption | destruct IH; lia | assumption].
  - apply boardOk_emptyBoard.
  - assumption.
Qed.

Lemma vsComputer_reachable_boardOk s :
  VsComputerReachable s -> boardOk (board s).
Proof.
  induction 1 as [|s index H IH Hi|s r H IH|s H IH|s H IH].
  - apply boardOk_emptyBoard.
  - destruct (vsComputer_click_cases index s) as [-> | (_ & _ & Hf & ->)];
      [assumption|].
    apply settleMove_keeps_board; [assumption | destruct IH; lia | assumption].
  - destruct (computerTurn_cases r s)
      as [-> | (_ & _ & i & Hnull & _ & ->)]; [assumption|].
    pose proof (cellAt_Null_lt _ _ Hnull).
    apply settleMove_keeps_board;
      [assumption | destruct IH; lia | apply null_is_falsy, Hnull].
  - apply boardOk_emptyBoard.
  - assumption.
Qed.

(** Through the user interface the board never leaves the shape it starts
    with: in every reachable state of either component it has exactly nine
    cells and none of them is a hole. *)
Theorem reachable_board_has_nine_cells (s : Session) :
  TwoPlayerReachable s \/ VsComputerReachable s -> boardOk (board s).
Proof.
  intros [H | H];
    [apply twoPlayer_reachable_boardOk | apply vsComputer_reachable_boardOk];
    exact H.
Qed.

Lemma reachable_board_has_nine_cells_witness :
  boardOk (board (TwoPlayer.handleCellClick 4 newSession)).
Proof.
  apply reachable_board_has_nine_cells. left.
  apply tp_click; [apply tp_init | simpl; lia].
Defined.

(** *** The phase always matches the board *)

(** What each phase says about the board and the recorded winner. *)
Definition phaseMatchesBoard (s : Session) : Prop :=
  match gameState s with
  | Playing =>
      checkWinner (board s) = None /\ isBoardFull (board s) = false
      /\ winner s = None
  | Won => is_Some (winner s) /\ checkWinner (board s) = winner s
  | Draw =>
      checkWinner (board s) = None /\ isBoardFull (board s) = true
      /\ winner s = None
  end.

Lemma settleMove_phaseMatchesBoard nb next s :
  gameState s = Playing -> winner s = None ->
  phaseMatchesBoard (settleMove nb next s).
Proof.
  intros Hplay Hw. unfold phaseMatchesBoard, settleMove.
  destruct (checkWinner nb) as [w|] eqn:Hcw;
    [|destruct (isBoardFull nb) eqn:Hfull];
    cbn [gameState board winner]; rewrite ?Hplay; cbn [gameState board winner];
    rewrite ?Hcw, ?Hfull; eauto.
Qed.

Lemma playing_has_no_winner s :
  phaseMatchesBoard s -> gameState s = Playing -> winner s = None.
Proof.
  unfold phaseMatchesBoard. intros H Hp. rewrite Hp in H. apply H.
Qed.

Lemma phaseMatchesBoard_newSession : phaseMatchesBoard newSession.
Proof. repeat split; reflexivity. Qed.

Lemma twoPlayer_reachable_phase s :
  TwoPlayerReachable s -> phaseMatchesBoard s.
Proof.
  induction 1 as [|s index H IH Hi|s H IH|s H IH].
  - exact phaseMatchesBoard_newSession.
  - destruct (twoPlayer_click_cases index s) as [-> | (Hp & _ & ->)];
      [assumption|].
    apply settleMove_phaseMatchesBoard;
      [assumption | apply playing_has_no_winner; assumption].
  - exact phaseMatchesBoard_newSession.
  - exact IH.
Qed.

Lemma vsComputer_reachable_phase s :
  VsComputerReachable s -> phaseMatchesBoard s.
Proof.
  induction 1 as [|s index H IH Hi|s r H IH|s H IH|s H IH].
  - exact phaseMatchesBoard_newSession.
  - destruct (vsComputer_click_cases index s) as [-> | (Hp & _ & _ & ->)];
      [assumption|].
    apply settleMove_phaseMatchesBoard;
      [assumption | apply playing_has_no_winner; assumption].
  - destruct (computerTurn_cases r s)
      as [-> | (Hp & _ & i & _ & _ & ->)]; [assumption|].
    apply settleMove_phaseMatchesBoard;
      [assumption | apply playing_has_no_winner; assumption].
  - exact phaseMatchesBoard_newSession.
  - exact IH.
Qed.

(** In every reachable state of either component the phase agrees with the
    board: in progress means no winning line, an empty cell left and no
    recorded winner; won means the recorded winner is the mark [checkWinner]
    finds on the board; drawn means a full board without a winning line. *)
Theorem reachable_phase_matches_board (s : Session) :
  TwoPlayerReachable s \/ VsComputerReachable s -> phaseMatchesBoard s.
Proof.
  intros [H | H];
    [apply twoPlayer_reachable_phase | apply vsComputer_reachable_phase];
    exact H.
Qed.

Lemma reachable_phase_matches_board_witness :
  phaseMatchesBoard (VsComputer.computerTurn 0
                       (VsComputer.handleCellClick 0 newSession)).
Proof.
  apply reachable_phase_matches_board. right.
  apply vc_timer, vc_click; [apply vc_init | simpl; lia].
Defined.

(** *** What the status line can show *)

(** In the two-player component the status line never shows a missing
    winner: in every reachable state the message is one of the five proper
    ones, and "Player X wins!" / "Player O wins!" is shown only when that
    mark holds a line on the board. *)
Theorem twoPlayer_status_message (s : Session) :
  TwoPlayerReachable s ->
  TwoPlayerUI.getStatusMessage s <> "Player null wins!"
  /\ (TwoPlayerUI.getStatusMessage s = "Player X wins!"
      /\ checkWinner (board s) = Some X
      \/ TwoPlayerUI.getStatusMessage s = "Player O wins!"
         /\ checkWinner (board s) = Some O
      \/ TwoPlayerUI.getStatusMessage s = "It's a draw!"
         /\ checkWinner (board s) = None /\ isBoardFull (board s) = true
      \/ TwoPlayerUI.getStatusMessage s = "Player X's turn"
         /\ gameState s = Playing /\ currentPlayer s = X
      \/ TwoPlayerUI.getStatusMessage s = "Player O's turn"
         /\ gameState s = Playing /\ currentPlayer s = O).
Proof.
  intros H.
  pose proof (twoPlayer_reachable_phase s H) as Hm.
  unfold phaseMatchesBoard in Hm. unfold TwoPlayerUI.getStatusMessage.
  destruct (gameState s) eqn:Hgs.
  - destruct (currentPlayer s); (split; [discriminate|]); auto 10.
  - destruct Hm as [[w Hw] Hcw]. rewrite Hw in Hcw |- *.
    destruct w; (split; [discriminate|]); auto.
  - destruct Hm as (Hcw & Hfull & _). split; [discriminate|]. auto 10.
Qed.

Lemma twoPlayer_status_message_witness :
  TwoPlayerUI.getStatusMessage (TwoPlayer.handleCellClick 8 newSession)
  <> "Player null wins!".
Proof.
  apply twoPlayer_status_message.
  apply tp_click; [apply tp_init | simpl; lia].
Defined.

(** The same handlers on a state the component cannot reach: with the phase
    forced to [Won] and no winner recorded the message does name "null". *)
Example status_message_of_unreachable_state :
  TwoPlayerUI.getStatusMessage
    {| board := emptyBoard; currentPlayer := X; gameState := Won;
       winner := None; stats := mkStats 0 0 0 |}
  = "Player null wins!".
Proof. reflexivity. Qed.

(** *** A disabled button is exactly a click that does nothing *)

Lemma cellAt_setCell_same (b : Board) i v : cellAt (setCell b i v) i = v.
Proof.
  unfold setCell. destruct (decide (i < length b)%nat) as [Hlt|Hge].
  - apply cellAt_lookup, list_lookup_insert_eq, Hlt.
  - apply cellAt_lookup.
    rewrite lookup_app_r by lia.
    rewrite lookup_app_r by (rewrite length_replicate; lia).
    rewrite length_replicate, Nat.sub_diag. reflexivity.
Qed.

Lemma settleMove_changes_board (b : Board) i p next s :
  truthy (cellAt b i) = false ->
  board (settleMove (setCell b i (Mark p)) next s) <> b.
Proof.
  intros Hf Heq. rewrite board_settleMove in Heq.
  pose proof (cellAt_setCell_same b i (Mark p)) as Hc.
  rewrite Heq in Hc. rewrite Hc in Hf. discriminate.
Qed.

(** In both components the guard of [handleCellClick] is the [disabled]
    condition of the button: a click on a disabled cell leaves the whole
    state as it is, and a click on an enabled cell always puts the mover's
    mark on that cell. *)
Theorem disabled_button_iff_click_ignored (index : nat) (s : Session) :
  (TwoPlayerUI.buttonDisabled index s = true <->
   TwoPlayer.handleCellClick index s = s)
  /\ (TwoPlayerUI.buttonDisabled index s = false ->
      cellAt (board (TwoPlayer.handleCellClick index s)) index
      = Mark (currentPlayer s))
  /\ (VsComputerUI.buttonDisabled index s = true <->
      VsComputer.handleCellClick index s = s)
  /\ (VsComputerUI.buttonDisabled index s = false ->
      cellAt (board (VsComputer.handleCellClick index s)) index = Mark X).
Proof.
  unfold TwoPlayerUI.buttonDisabled, VsComputerUI.buttonDisabled,
    TwoPlayer.handleCellClick, VsComputer.handleCellClick.
  destruct (truthy (cellAt (board s) index)) eqn:Hf; cbn [orb].
  { repeat split; auto; discriminate. }
  destruct (negb (bool_decide (gameState s = Playing))); cbn [orb].
  { repeat split; auto; discriminate. }
  split; [|split; [|split]].
  - split; [discriminate|]. intros Heq. exfalso.
    eapply settleMove_changes_board; [exact Hf|]. rewrite Heq. reflexivity.
  - intros _. rewrite board_settleMove. apply cellAt_setCell_same.
  - destruct (negb (bool_decide (currentPlayer s = X)));
      [split; reflexivity|].
    split; [discriminate|]. intros Heq. exfalso.
    eapply settleMove_changes_board; [exact Hf|]. rewrite Heq. reflexivity.
  - destruct (negb (bool_decide (currentPlayer s = X))); [discriminate|].
    intros _. rewrite board_settleMove. apply cellAt_setCell_same.
Qed.

(** *** Statistics count finished games *)

Definition gamesCounted (st : GameStats) : Z := xWins st + oWins st + draws st.

(** How the statistics move between [s] and [s']: untouched while the phase
    stays the same; when the phase changes, the game was in progress and is
    now over, exactly one counter went up by one and none went down. *)
Definition countsTheFinishedGame (s s' : Session) : Prop :=
  (gameState s' = gameState s -> stats s' = stats s)
  /\ (gameState s' <> gameState s ->
      gameState s = Playing
      /\ gamesCounted (stats s') = gamesCounted (stats s) + 1
      /\ xWins (stats s) <= xWins (stats s')
      /\ oWins (stats s) <= oWins (stats s')
      /\ draws (stats s) <= draws (stats s')).

Lemma countsTheFinishedGame_refl s : countsTheFinishedGame s s.
Proof. split; [reflexivity | congruence]. Qed.

Lemma settleMove_countsTheFinishedGame nb next s :
  gameState s = Playing -> countsTheFinishedGame s (settleMove nb next s).
Proof.
  intros Hp. unfold countsTheFinishedGame, settleMove, gamesCounted.
  destruct (checkWinner nb) as [[|]|]; [| |destruct (isBoardFull nb)];
    cbn [gameState stats recordWin recordDraw xWins oWins draws];
    rewrite ?Hp; (split; [try discriminate; reflexivity|]);
    intros Hne; try congruence; (split; [reflexivity|]); lia.
Qed.

(** Every move handler, on any state and any index, touches the statistics
    only when it ends the game, and then counts that game once. *)
Theorem statistics_count_each_finished_game (s : Session) (index r : nat) :
  countsTheFinishedGame s (TwoPlayer.handleCellClick index s)
  /\ countsTheFinishedGame s (VsComputer.handleCellClick index s)
  /\ countsTheFinishedGame s (VsComputer.computerTurn r s).
Proof.
  split; [|split].
  - destruct (twoPlayer_click_cases index s) as [-> | (Hp & _ & ->)];
      [apply countsTheFinishedGame_refl|].
    apply settleMove_countsTheFinishedGame, Hp.
  - destruct (vsComputer_click_cases index s) as [-> | (Hp & _ & _ & ->)];
      [apply countsTheFinishedGame_refl|].
    apply settleMove_countsTheFinishedGame, Hp.
  - destruct (computerTurn_cases r s) as [-> | (Hp & _ & i & _ & _ & ->)];
      [apply countsTheFinishedGame_refl|].
    apply settleMove_countsTheFinishedGame, Hp.
Qed.

(** *** The two reset buttons *)

(** "New Game" and "Reset Stats" act on disjoint parts of the state: they
    commute, each is idempotent, pressing both gives the initial state, and
    "New Game" keeps the statistics while "Reset Stats" keeps the game. *)
Theorem resets_compose (s : Session) :
  resetGame (resetStats s) = newSession
  /\ resetStats (resetGame s) = newSession
  /\ resetGame (resetGame s) = resetGame s
  /\ resetStats (resetStats s) = resetStats s
  /\ stats (resetGame s) = stats s
  /\ (board (resetStats s), currentPlayer (resetStats s),
      gameState (resetStats s), winner (resetStats s))
     = (board s, currentPlayer s, gameState s, winner s).
Proof. repeat split. Qed.

(** *** The marks alternate *)

(** Number of cells holding the mark of [p]. *)
Definition countMark (p : Player) (b : Board) : nat :=
  length (filter (fun c => c = Mark p) b).

Lemma countMark_app p (b1 b2 : Board) :
  countMark p (b1 ++ b2) = (countMark p b1 + countMark p b2)%nat.
Proof. unfold countMark. rewrite filter_app, length_app. reflexivity. Qed.

Lemma countMark_cons p c (b : Board) :
  countMark p (c :: b)
  = ((if decide (c = Mark p) then 1 else 0) + countMark p b)%nat.
Proof.
  unfold countMark. rewrite filter_cons.
  destruct (decide (c = Mark p)); reflexivity.
Qed.

Lemma countMark_holes p n : countMark p (replicate n Undefined) = 0%nat.
Proof.
  induction n as [|n IH]; [reflexivity|].
  cbn [replicate]. rewrite countMark_cons, IH.
  rewrite decide_False by discriminate. reflexivity.
Qed.

(** Writing a mark on a falsy cell adds one to the count of that mark and
    leaves the other count alone, in range or not. *)
Lemma countMark_setCell (b : Board) i p q :
  truthy (cellAt b i) = false ->
  countMark p (setCell b i (Mark q))
  = (countMark p b + (if decide (p = q) then 1 else 0))%nat.
Proof.
  intros Hf.
  assert (countMark p [Mark q] = if decide (p = q) then 1%nat else 0%nat)
    as Hone.
  { rewrite countMark_cons. change (countMark p []) with 0%nat.
    destruct (decide (p = q)) as [->|Hne].
    - rewrite decide_True by reflexivity. reflexivity.
    - rewrite decide_False by congruence. reflexivity. }
  unfold setCell. destruct (decide (i < length b)%nat) as [Hlt|Hge].
  - destruct (lookup_lt_is_Some_2 b i Hlt) as [c Hc].
    rewrite (cellAt_lookup _ _ _ Hc) in Hf.
    rewrite insert_take_drop by assumption.
    rewrite <- (take_drop_middle b i c Hc) at 3.
    rewrite !countMark_app.
    change (Mark q :: drop (S i) b) with ([Mark q] ++ drop (S i) b).
    rewrite countMark_app, Hone, (countMark_cons p c).
    rewrite (decide_False (P := c = Mark p))
      by (intros ->; discriminate Hf).
    lia.
  - rewrite !countMark_app, countMark_holes, Hone. lia.
Qed.

(** 'X' and 'O' alternate, 'X' first: while the game is in progress the
    counts are equal when 'X' is to move and 'X' is one ahead when 'O' is to
    move; once it is over 'X' is level or one ahead. *)
Definition marksAlternate (s : Session) : Prop :=
  match gameState s, currentPlayer s with
  | Playing, X => countMark X (board s) = countMark O (board s)
  | Playing, O => countMark X (board s) = S (countMark O (board s))
  | _, _ => countMark X (board s) = countMark O (board s)
            \/ countMark X (board s) = S (countMark O (board s))
  end.

Lemma settleMove_marksAlternate nb next s :
  (next = X -> countMark X nb = countMark O nb) ->
  (next = O -> countMark X nb = S (countMark O nb)) ->
  gameState s = Playing ->
  marksAlternate (settleMove nb next s).
Proof.
  intros Hx Ho Hp.
  assert (countMark X nb = countMark O nb
          \/ countMark X nb = S (countMark O nb)) as Hor
    by (destruct next; auto).
  unfold marksAlternate, settleMove.
  destruct (checkWinner nb); [|destruct (isBoardFull nb)];
    cbn [gameState currentPlayer board]; try assumption.
  rewrite Hp. destruct next; auto.
Qed.

(** In every reachable state of either component the marks on the board
    alternate: 'O' is never ahead and 'X' never more than one ahead, and in
    a game in progress the player to move is the one the counts call for. *)
Theorem reachable_marks_alternate (s : Session) :
  TwoPlayerReachable s \/ VsComputerReachable s -> marksAlternate s.
Proof.
  assert (marksAlternate newSession) as Hinit by reflexivity.
  intros [H | H].
  - induction H as [|s index H IH Hi|s H IH|s H IH].
    + exact Hinit.
    + destruct (twoPlayer_click_cases index s) as [-> | (Hp & Hf & ->)];
        [assumption|].
      unfold marksAlternate in IH. rewrite Hp in IH.
      apply settleMove_marksAlternate; [| |assumption];
        intros Hnext; rewrite !countMark_setCell by assumption;
        destruct (currentPlayer s); try discriminate Hnext;
        repeat first [rewrite decide_True by reflexivity
                     |rewrite decide_False by discriminate]; lia.
    + exact Hinit.
    + exact IH.
  - induction H as [|s index H IH Hi|s r H IH|s H IH|s H IH].
    + exact Hinit.
    + destruct (vsComputer_click_cases index s)
        as [-> | (Hp & Hx & Hf & ->)]; [assumption|].
      unfold marksAlternate in IH. rewrite Hp, Hx in IH.
      apply settleMove_marksAlternate; [discriminate| |assumption].
      intros _. rewrite !countMark_setCell by assumption.
      rewrite decide_True by reflexivity.
      rewrite decide_False by discriminate. lia.
    + destruct (computerTurn_cases r s)
        as [-> | (Hp & Ho & i & Hnull & _ & ->)]; [assumption|].
      unfold marksAlternate in IH. rewrite Hp, Ho in IH.
      apply settleMove_marksAlternate; [|discriminate|assumption].
      intros _. rewrite !countMark_setCell by (apply null_is_falsy, Hnull).
      rewrite decide_False by discriminate.
      rewrite decide_True by reflexivity. lia.
    + exact Hinit.
    + exact IH.
Qed.

Lemma reachable_marks_alternate_witness :
  marksAlternate (TwoPlayer.handleCellClick 3
                    (TwoPlayer.handleCellClick 0 newSession)).
Proof.
  apply reachable_marks_alternate. left.
  apply tp_click; [apply tp_click; [apply tp_init | simpl; lia] | simpl; lia].
Defined.

(** *** Every move fills one cell *)

Lemma filter_all {A} (P : A -> Prop) `{!forall x, Decision (P x)}
      (l : list A) :
  (forall y, y ∈ l -> P y) -> filter P l = l.
Proof.
  induction l as [|a l IH]; intros Hall; [reflexivity|].
  rewrite filter_cons_True by (apply Hall; left).
  f_equal. apply IH. intros y Hy. apply Hall. right. exact Hy.
Qed.

Lemma length_filter_remove (l : list nat) x :
  NoDup l -> x ∈ l -> S (length (filter (fun j => j <> x) l)) = length l.
Proof.
  induction l as [|a l IH]; intros Hnd Hin; [inversion Hin|].
  apply NoDup_cons in Hnd as [Hnotin Hnd].
  destruct (decide (a = x)) as [->|Hne].
  - rewrite filter_cons_False by (intros H; apply H; reflexivity).
    rewrite filter_all; [reflexivity|]. intros y Hy ->. contradiction.
  - rewrite filter_cons_True by assumption. cbn [length]. f_equal.
    apply IH; [assumption|].
    apply elem_of_cons in Hin as [->|Hin]; [congruence | assumption].
Qed.

Lemma nullCount_setCell_exact (b : Board) i p :
  (i < 9)%nat -> cellAt b i = Null ->
  S (nullCount (setCell b i (Mark p))) = nullCount b.
Proof.
  intros Hi Hnull. unfold nullCount.
  rewrite nullIndices_setCell by assumption.
  apply length_filter_remove.
  - apply NoDup_filter, NoDup_seq.
  - apply elem_of_nullIndices. auto.
Qed.

(** Number of empty cells of the session's board. *)
Definition emptyCount (s : Session) : nat := length (getEmptyCells (board s)).

Lemma falsy_cell_of_boardOk (b : Board) i :
  boardOk b -> (i < length b)%nat -> truthy (cellAt b i) = false ->
  cellAt b i = Null.
Proof.
  intros [_ Hall] Hi Hf.
  destruct (lookup_lt_is_Some_2 b i Hi) as [c Hc].
  rewrite (cellAt_lookup _ _ _ Hc) in Hf |- *.
  pose proof (Forall_lookup_1 _ _ _ _ Hall Hc) as Hu.
  destruct c; [reflexivity | discriminate | congruence].
Qed.

Lemma settleMove_fills_one_cell (b : Board) i p next s :
  boardOk b -> cellAt b i = Null ->
  S (length (getEmptyCells (board (settleMove (setCell b i (Mark p)) next s))))
  = length (getEmptyCells b).
Proof.
  intros Hok Hnull. pose proof (cellAt_Null_lt _ _ Hnull) as Hlt.
  destruct Hok as [Hlen Hall].
  rewrite board_settleMove, !length_getEmptyCells;
    [|assumption | rewrite length_setCell_in_range; assumption].
  apply nullCount_setCell_exact; [lia | assumption].
Qed.

(** In a reachable state of either component, a click on an enabled button
    fills exactly one empty cell; and while a game is in progress at least
    one of the at most nine cells is empty.  So a game is over after at most
    nine accepted moves. *)
Theorem accepted_click_fills_one_cell (s : Session) (index : nat) :
  TwoPlayerReachable s \/ VsComputerReachable s ->
  (index < length (board s))%nat ->
  (TwoPlayerUI.buttonDisabled index s = false ->
   S (emptyCount (TwoPlayer.handleCellClick index s)) = emptyCount s)
  /\ (VsComputerUI.buttonDisabled index s = false ->
      S (emptyCount (VsComputer.handleCellClick index s)) = emptyCount s)
  /\ (emptyCount s <= 9)%nat
  /\ (gameState s = Playing -> (1 <= emptyCount s)%nat).
Proof.
  intros Hreach Hi.
  assert (boardOk (board s)) as Hok
    by (destruct Hreach;
        [apply twoPlayer_reachable_boardOk | apply vsComputer_reachable_boardOk];
        assumption).
  assert (phaseMatchesBoard s) as Hphase
    by (destruct Hreach;
        [apply twoPlayer_reachable_phase | apply vsComputer_reachable_phase];
        assumption).
  unfold emptyCount.
  split; [|split; [|split]].
  - unfold TwoPlayerUI.buttonDisabled, TwoPlayer.handleCellClick.
    intros Hen. rewrite Hen. apply orb_false_elim in Hen as [Hf _].
    apply settleMove_fills_one_cell; [assumption|].
    apply falsy_cell_of_boardOk; assumption.
  - unfold VsComputerUI.buttonDisabled, VsComputer.handleCellClick.
    intros Hen. rewrite Hen.
    apply orb_false_elim in Hen as [Hen _].
    apply orb_false_elim in Hen as [Hf _].
    apply settleMove_fills_one_cell; [assumption|].
    apply falsy_cell_of_boardOk; assumption.
  - rewrite length_getEmptyCells by apply Hok. apply nullCount_le_9.
  - intros Hp. unfold phaseMatchesBoard in Hphase. rewrite Hp in Hphase.
    destruct Hphase as (_ & Hfull & _).
    destruct (isBoardFull_false _ Hfull) as [i Hnull].
    pose proof (getEmptyCells_nonempty_of_null _ _ Hnull) as Hne.
    destruct (getEmptyCells (board s)); [congruence | simpl; lia].
Qed.

Lemma accepted_click_fills_one_cell_witness :
  S (emptyCount (TwoPlayer.handleCellClick 4 newSession))
  = emptyCount newSession.
Proof.
  refine (proj1 (accepted_click_fills_one_cell newSession 4
                   (or_introl tp_init) _) eq_refl).
  simpl. lia.
Defined.

(** Whenever it is the computer's turn in a reachable state, the timer's
    call does move: it writes 'O' on the empty cell chosen by [getBestMove]
    (the early [return] on an empty candidate list and the random fallback
    are not taken), and afterwards the game is over or it is the turn of
    'X'. *)
Theorem computer_always_answers (s : Session) (r : nat) :
  VsComputerReachable s ->
  currentPlayer s = O -> gameState s = Playing ->
  0 <= getBestMove (board s) <= 8
  /\ cellAt (board s) (Z.to_nat (getBestMove (board s))) = Null
  /\ board (VsComputer.computerTurn r s)
     = setCell (board s) (Z.to_nat (getBestMove (board s))) (Mark O)
  /\ S (emptyCount (VsComputer.computerTurn r s)) = emptyCount s
  /\ (gameState (VsComputer.computerTurn r s) = Playing ->
      currentPlayer (VsComputer.computerTurn r s) = X).
Proof.
  intros Hreach Ho Hp.
  pose proof (vsComputer_reachable_boardOk s Hreach) as Hok.
  pose proof (vsComputer_reachable_phase s Hreach) as Hphase.
  unfold phaseMatchesBoard in Hphase. rewrite Hp in Hphase.
  destruct Hphase as (_ & Hfull & _).
  destruct (isBoardFull_false _ Hfull) as [j Hj].
  pose proof (getEmptyCells_nonempty_of_null _ _ Hj) as Hne.
  destruct (getBestMove_choice (board s) (proj1 Hok) Hne)
    as (x & Hx & Hbest & Hnull & _).
  rewrite Hbest, Nat2Z.id.
  split; [lia|]. split; [assumption|].
  unfold VsComputer.computerTurn.
  rewrite (bool_decide_eq_true_2 _ Ho), (bool_decide_eq_true_2 _ Hp).
  cbn [andb].
  destruct (computerMove_is_empty_cell r (board s) s)
    as [[Hnil _] | (k & _ & Hk & ->)]; [congruence|].
  assert (k = x) as -> by (specialize (Hk ltac:(lia)); lia).
  split; [apply board_settleMove|]. split.
  - unfold emptyCount. apply settleMove_fills_one_cell; assumption.
  - unfold settleMove.
    destruct (checkWinner (setCell (board s) x (Mark O)));
      [discriminate|].
    destruct (isBoardFull (setCell (board s) x (Mark O)));
      [discriminate | reflexivity].
Qed.

Lemma computer_always_answers_witness :
  S (emptyCount (VsComputer.computerTurn 0
                   (VsComputer.handleCellClick 0 newSession)))
  = emptyCount (VsComputer.handleCellClick 0 newSession).
Proof.
  refine (proj1 (proj2 (proj2 (proj2
    (computer_always_answers (VsComputer.handleCellClick 0 newSession) 0
       _ eq_refl eq_refl))))).
  apply vc_click; [apply vc_init | simpl; lia].
Defined.

(** *** The computer never loses *)

(** The computer's answer on [b1], followed by [k] on the board it leaves if
    the game goes on: [false] as soon as 'X' holds a line. *)
Definition replySafe (k : Board -> bool) (b1 : Board) : bool :=
  let b2 := setCell b1 (Z.to_nat (getBestMove b1)) (Mark O) in
  match checkWinner b2 with
  | Some X => false
  | Some O => true
  | None => isBoardFull b2 || k b2
  end.

(** A click of 'X' on cell [i] of [b], then the computer's answer. *)
Definition clickSafe (k : Board -> bool) (b : Board) (i : nat) : bool :=
  if truthy (cellAt b i) then true
  else
    let b1 := setCell b i (Mark X) in
    match checkWinner b1 with
    | Some X => false
    | Some O => true
    | None => isBoardFull b1 || replySafe k b1
    end.

(** Whatever 'X' clicks during the next [n] rounds, 'X' never holds a line
    after a move, and the game is over by then. *)
Fixpoint humanCannotWin (n : nat) (b : Board) : bool :=
  forallb (clickSafe (match n with
                      | 0%nat => fun _ => false
                      | S n' => humanCannotWin n'
                      end) b)
          (seq 0 9).

Definition afterRounds (n : nat) : Board -> bool :=
  match n with
  | 0%nat => fun _ => false
  | S n' => humanCannotWin n'
  end.

Lemma humanCannotWin_emptyBoard : humanCannotWin 5 emptyBoard = true.
Proof. vm_compute. reflexivity. Qed.

(** The invariant carried along every run of the component. *)
Definition computerUnbeaten (s : Session) : Prop :=
  xWins (stats s) = 0
  /\ winner s <> Some X
  /\ length (board s) = 9%nat
  /\ (gameState s = Playing ->
      match currentPlayer s with
      | X => exists n, humanCannotWin n (board s) = true
      | O => exists n, replySafe (afterRounds n) (board s) = true
      end).

Lemma computerUnbeaten_fresh st :
  xWins st = 0 ->
  computerUnbeaten {| board := emptyBoard; currentPlayer := X;
                      gameState := Playing; winner := None; stats := st |}.
Proof.
  intros Hx. split; [exact Hx|]. split; [discriminate|].
  split; [reflexivity|]. intros _. exists 5%nat.
  exact humanCannotWin_emptyBoard.
Qed.

Lemma computerUnbeaten_click index s :
  (index < length (board s))%nat ->
  computerUnbeaten s -> computerUnbeaten (VsComputer.handleCellClick index s).
Proof.
  intros Hi Hinv.
  destruct (vsComputer_click_cases index s) as [-> | (Hp & Hx & Hf & ->)];
    [assumption|].
  destruct Hinv as (Hxw & Hw & Hlen & Hsafe).
  specialize (Hsafe Hp). rewrite Hx in Hsafe. destruct Hsafe as [n Hn].
  assert (clickSafe (afterRounds n) (board s) index = true) as Hclick.
  { destruct n; cbn [humanCannotWin] in Hn;
      apply (proj1 (forallb_forall _ _) Hn), in_seq; lia. }
  unfold clickSafe in Hclick. rewrite Hf in Hclick. cbv zeta in Hclick.
  assert (length (setCell (board s) index (Mark X)) = 9%nat) as Hlen'
    by (rewrite length_setCell_in_range; [assumption | lia]).
  unfold computerUnbeaten, settleMove.
  destruct (checkWinner (setCell (board s) index (Mark X))) as [[|]|];
    [discriminate Hclick | |];
    [|destruct (isBoardFull (setCell (board s) index (Mark X)))];
    cbn [board currentPlayer gameState winner stats recordWin recordDraw
         xWins];
    (split; [assumption|]); (split; [congruence|]);
    (split; [assumption|]); try discriminate.
  intros _. exists n. exact Hclick.
Qed.

Lemma computerUnbeaten_timer r s :
  computerUnbeaten s -> computerUnbeaten (VsComputer.computerTurn r s).
Proof.
  intros Hinv.
  destruct (computerTurn_cases r s)
    as [-> | (Hp & Ho & i & Hnull & Hbest & ->)]; [assumption|].
  destruct Hinv as (Hxw & Hw & Hlen & Hsafe).
  specialize (Hsafe Hp). rewrite Ho in Hsafe. destruct Hsafe as [n Hn].
  pose proof (cellAt_Null_lt _ _ Hnull) as Hlt.
  destruct (getBestMove_choice (board s) Hlen
              (getEmptyCells_nonempty_of_null _ _ Hnull))
    as (x & _ & Hx & _).
  assert (Z.to_nat (getBestMove (board s)) = i) as Hmove
    by (specialize (Hbest ltac:(lia)); lia).
  unfold replySafe in Hn. rewrite Hmove in Hn. cbv zeta in Hn.
  assert (length (setCell (board s) i (Mark O)) = 9%nat) as Hlen'
    by (rewrite length_setCell_in_range; assumption).
  unfold computerUnbeaten, settleMove.
  destruct (checkWinner (setCell (board s) i (Mark O))) as [[|]|];
    [discriminate Hn | |];
    [|destruct (isBoardFull (setCell (board s) i (Mark O)))];
    cbn [board currentPlayer gameState winner stats recordWin recordDraw
         xWins];
    (split; [assumption|]); (split; [congruence|]);
    (split; [assumption|]); try discriminate.
  intros _. destruct n as [|n]; [discriminate Hn|]. exists n. exact Hn.
Qed.

Lemma vsComputer_reachable_unbeaten s :
  VsComputerReachable s -> computerUnbeaten s.
Proof.
  induction 1 as [|s index H IH Hi|s r H IH|s H IH|s H IH].
  - apply (computerUnbeaten_fresh (mkStats 0 0 0)). reflexivity.
  - apply computerUnbeaten_click; assumption.
  - apply computerUnbeaten_timer; assumption.
  - apply computerUnbeaten_fresh. apply IH.
  - destruct IH as (_ & Hw & Hlen & Hsafe).
    split; [reflexivity|]. split; [exact Hw|]. split; [exact Hlen|].
    exact Hsafe.
Qed.



(** When the status line of the second component announces a result, the
    board bears it out: "Computer wins!" is shown only with 'O' holding a
    line, "It's a draw!" only on a full board without a line, and the two
    turn messages only while a game is in progress with an empty cell. *)
Theorem vsComputer_status_message (s : Session) :
  VsComputerReachable s ->
  (VsComputerUI.getStatusMessage s = "Computer wins!"
   /\ checkWinner (board s) = Some O /\ winner s = Some O)
  \/ (VsComputerUI.getStatusMessage s = "It's a draw!"
      /\ checkWinner (board s) = None /\ isBoardFull (board s) = true)
  \/ (VsComputerUI.getStatusMessage s = "Your turn"
      /\ gameState s = Playing /\ currentPlayer s = X
      /\ isBoardFull (board s) = false)
  \/ (VsComputerUI.getStatusMessage s = "Computer thinking..."
      /\ gameState s = Playing /\ currentPlayer s = O
      /\ isBoardFull (board s) = false).
Proof.
  intros Hreach.
  destruct (vsComputer_reachable_unbeaten s Hreach) as (_ & Hw & _ & _).
  pose proof (vsComputer_reachable_phase s Hreach) as Hphase.
  unfold phaseMatchesBoard in Hphase.
  unfold VsComputerUI.getStatusMessage.
  destruct (gameState s).
  - destruct Hphase as (_ & Hfull & _).
    destruct (currentPlayer s); cbn [bool_decide decide_rel];
      [right; right; left | right; right; right]; auto.
  - destruct Hphase as [[w Hw'] Hcw]. rewrite Hw' in Hcw, Hw |- *.
    destruct w; [congruence|]. left. auto.
  - destruct Hphase as (Hcw & Hfull & _). right; left. auto.
Qed.

Lemma vsComputer_status_message_witness :
  VsComputerUI.getStatusMessage (VsComputer.handleCellClick 4 newSession)
  = "Computer thinking...".
Proof.
  destruct (vsComputer_status_message (VsComputer.handleCellClick 4 newSession))
    as [(H & _) | [(H & _) | [(H & _) | (H & _)]]];
    [apply vc_click; [apply vc_init | simpl; lia] | discriminate H ..| reflexivity].
Defined.

(** *** Only the player who moved can win *)

(** A write touches one index only, in range or not. *)
Lemma cellAt_setCell_other (b : Board) i j v :
  i <> j -> cellAt (setCell b i v) j = cellAt b j.
Proof.
  intros Hne. unfold setCell.
  destruct (decide (i < length b)%nat) as [Hlt|Hge].
  - unfold cellAt. rewrite list_lookup_insert_ne by assumption. reflexivity.
  - destruct (decide (j < length b)%nat) as [Hj|Hj].
    + unfold cellAt. rewrite lookup_app_l by assumption. reflexivity.
    + rewrite (cellAt_ge b j) by lia. unfold cellAt.
      rewrite lookup_app_r by lia.
      destruct (decide (j - length b < i - length b)%nat) as [Hin|Hout].
      * rewrite lookup_app_l by (rewrite length_replicate; lia).
        rewrite lookup_replicate_2 by lia. reflexivity.
      * rewrite lookup_app_r by (rewrite length_replicate; lia).
        rewrite length_replicate.
        destruct (j - length b - (i - length b))%nat as [|k] eqn:E; [lia|].
        reflexivity.
Qed.

Lemma lineHeldBy_before_write (b : Board) i p combo w :
  w <> p -> lineHeldBy (setCell b i (Mark p)) combo w -> lineHeldBy b combo w.
Proof.
  intros Hne (H1 & H2 & H3).
  assert (forall j, cellAt (setCell b i (Mark p)) j = Mark w ->
                    cellAt b j = Mark w) as Hback.
  { intros j Hj. destruct (decide (i = j)) as [<-|Hij].
    - rewrite cellAt_setCell_same in Hj. congruence.
    - rewrite cellAt_setCell_other in Hj by assumption. exact Hj. }
  repeat split; apply Hback; assumption.
Qed.

Lemma winner_is_the_mover (b : Board) (i : nat) (p w : Player) :
  checkWinner b = None ->
  checkWinner (setCell b i (Mark p)) = Some w ->
  w = p.
Proof.
  intros Hnone Hw. destruct (decide (w = p)) as [|Hne]; [assumption|].
  exfalso. apply checkWinnerFrom_Some in Hw as (k & combo & Hk & Hheld & _).
  apply (proj1 (checkWinnerFrom_None _ _) Hnone combo w).
  - apply list_elem_of_lookup. eauto.
  - eapply lineHeldBy_before_write; eassumption.
Qed.

Lemma only_the_mover_can_win_aux (b : Board) (i : nat) (p : Player) :
  checkWinner b = None ->
  checkWinner (setCell b i (Mark p)) = None
  \/ checkWinner (setCell b i (Mark p)) = Some p.
Proof.
  intros Hnone.
  destruct (checkWinner (setCell b i (Mark p))) as [w|] eqn:Hw; [|auto].
  right. f_equal. eapply winner_is_the_mover; eassumption.
Qed.

(** On a board without a winning line, writing a mark can only make that
    mark win: [checkWinner] on the new board is either "none" or the mark
    just written, wherever it was written. *)
Theorem only_the_mover_can_win (b : Board) (i : nat) (p : Player) :
  checkWinner b = None ->
  checkWinner (setCell b i (Mark p)) = None
  \/ checkWinner (setCell b i (Mark p)) = Some p.
Proof.
  apply only_the_mover_can_win_aux.
Qed.

Lemma only_the_mover_can_win_witness :
  checkWinner (setCell (board lastCellWins) 8 (Mark X)) = None
  \/ checkWinner (setCell (board lastCellWins) 8 (Mark X)) = Some X.
Proof.
  exact (only_the_mover_can_win (board lastCellWins) 8 X eq_refl).
Defined.

(** *** What the cells display after a click *)

(** After a click on an enabled button of the two-player component the
    clicked cell displays the mark of the player who moved and every other
    cell displays what it displayed before; a click on a disabled button
    changes no cell.  Same in the second component, where the mark is 'X'. *)
Theorem click_changes_one_displayed_cell (s : Session) (index j : nat) :
  TwoPlayerUI.getCellValue j (TwoPlayer.handleCellClick index s)
  = (if TwoPlayerUI.buttonDisabled index s then TwoPlayerUI.getCellValue j s
     else if decide (j = index) then showPlayer (currentPlayer s)
          else TwoPlayerUI.getCellValue j s)
  /\ VsComputerUI.getCellValue j (VsComputer.handleCellClick index s)
     = (if VsComputerUI.buttonDisabled index s
        then VsComputerUI.getCellValue j s
        else if decide (j = index) then "X"
             else VsComputerUI.getCellValue j s).
Proof.
  unfold TwoPlayerUI.getCellValue, VsComputerUI.getCellValue,
    TwoPlayerUI.buttonDisabled, VsComputerUI.buttonDisabled,
    TwoPlayer.handleCellClick, VsComputer.handleCellClick.
  destruct (truthy (cellAt (board s) index)
            || negb (bool_decide (gameState s = Playing))).
  { cbn [orb]. split; reflexivity. }
  cbn [orb]. rewrite board_settleMove. split.
  - destruct (decide (j = index)) as [->|Hne].
    + rewrite cellAt_setCell_same. reflexivity.
    + rewrite cellAt_setCell_other by congruence. reflexivity.
  - destruct (negb (bool_decide (currentPlayer s = X))); [reflexivity|].
    rewrite board_settleMove.
    destruct (decide (j = index)) as [->|Hne].
    + rewrite cellAt_setCell_same. reflexivity.
    + rewrite cellAt_setCell_other by congruence. reflexivity.
Qed.

(** *** The computer blocks a single threat *)

Lemma lineHeldBy_transfer (b b' : Board) combo p :
  (forall c, cellAt b c = Mark p -> cellAt b' c = Mark p) ->
  lineHeldBy b combo p -> lineHeldBy b' combo p.
Proof. intros H (H1 & H2 & H3). repeat split; apply H; assumption. Qed.

Lemma checkWinner_Some_held (b : Board) p :
  checkWinner b = Some p -> exists combo,
    combo ∈ winningCombinations /\ lineHeldBy b combo p.
Proof.
  intros H. apply checkWinnerFrom_Some in H as (k & combo & Hk & Hheld & _).
  exists combo. split; [apply list_elem_of_lookup; eauto | assumption].
Qed.

Lemma held_line_gives_winner (b : Board) combo p :
  combo ∈ winningCombinations -> lineHeldBy b combo p ->
  checkWinner b <> None.
Proof.
  intros Hin Hheld Hnone.
  exact (proj1 (checkWinnerFrom_None _ _) Hnone combo p Hin Hheld).
Qed.

Lemma not_full_of_null (b : Board) i :
  cellAt b i = Null -> isBoardFull b = false.
Proof.
  intros Hnull. destruct (isBoardFull b) eqn:Hfull; [|reflexivity].
  exfalso. unfold cellAt in Hnull.
  destruct (b !! i) as [c|] eqn:Hlook; [|discriminate].
  simpl in Hnull. subst c.
  apply list_elem_of_lookup_2, list_elem_of_In in Hlook.
  pose proof (proj1 (forallb_forall _ _) Hfull Null Hlook) as Hn.
  discriminate Hn.
Qed.

(** Without a winner on the board the score at depth [d] is at least
    [d - 9]: a loss can only come one ply further down. *)
Lemma minimax_no_winner_lower_bound (b : Board) d m :
  length b = 9%nat -> checkWinner b = None ->
  0 <= d -> d + Z.of_nat (nullCount b) <= 9 ->
  exists z, minimax b d m = Fin z /\ d - 9 <= z.
Proof.
  intros Hlen Hnone Hd Hsum. rewrite minimax_unfold, Hnone.
  destruct (isBoardFull b) eqn:Hfull; [exists 0; split; [reflexivity | lia]|].
  pose proof (nullIndices_nonempty b Hlen Hfull) as Hne.
  assert (forall i p m', i ∈ nullIndices b ->
            exists z, minimax (setCell b i (Mark p)) (d + 1) m' = Fin z
                      /\ d - 9 <= z) as Hchild.
  { intros i p m' Hi. apply elem_of_nullIndices in Hi as [Hnull Hi].
    pose proof (nullCount_setCell b i p Hi Hnull).
    destruct (minimax_bounds 10 (setCell b i (Mark p)) (d + 1) m')
      as (z & Hz & Hb); [| | lia | lia |].
    - pose proof (nullCount_le_9 (setCell b i (Mark p))). lia.
    - rewrite length_setCell_in_range; [assumption|].
      apply cellAt_Null_lt, Hnull.
    - exists z. split; [assumption | lia]. }
  destruct m.
  - destruct (foldl_smax_attained
                (fun i => minimax (setCell b i (Mark O)) (d + 1) false)
                (nullIndices b) Hne) as (i & Hi & ->).
    apply Hchild, Hi.
  - destruct (foldl_smin_attained
                (fun i => minimax (setCell b i (Mark X)) (d + 1) true)
                (nullIndices b) Hne) as (i & Hi & ->).
    apply Hchild, Hi.
Qed.

Section SingleThreat.

Variable b : Board.
Variable t : nat.
Hypothesis Hlen : length b = 9%nat.
Hypothesis Hnone : checkWinner b = None.
Hypothesis Hnowin :
  forall j, cellAt b j = Null ->
            checkWinner (setCell b j (Mark O)) <> Some O.
Hypothesis Htnull : cellAt b t = Null.
Hypothesis Hthreat : checkWinner (setCell b t (Mark X)) = Some X.
Hypothesis Honly :
  forall j, cellAt b j = Null -> j <> t ->
            checkWinner (setCell b j (Mark X)) <> Some X.

Lemma no_winner_after_O j :
  cellAt b j = Null -> checkWinner (setCell b j (Mark O)) = None.
Proof using Hnone Hnowin.
  intros Hj. destruct (checkWinner (setCell b j (Mark O))) as [w|] eqn:Hw;
    [|reflexivity].
  exfalso. apply (Hnowin j Hj). rewrite Hw. f_equal.
  eapply winner_is_the_mover; eassumption.
Qed.

Lemma nullCount_after_O j :
  cellAt b j = Null -> (nullCount (setCell b j (Mark O)) <= 8)%nat.
Proof using Hlen.
  intros Hj. pose proof (cellAt_Null_lt _ _ Hj).
  pose proof (nullCount_setCell b j O ltac:(lia) Hj).
  pose proof (nullCount_le_9 b). lia.
Qed.

(** Leaving the threat open loses at the next ply: score [-9]. *)
Lemma score_of_not_blocking j :
  cellAt b j = Null -> j <> t ->
  minimax (setCell b j (Mark O)) 0 false = Fin (-9).
Proof using All.
  intros Hj Hjt. pose proof (cellAt_Null_lt _ _ Hj) as Hjlt.
  pose proof (cellAt_Null_lt _ _ Htnull) as Htlt.
  set (b1 := setCell b j (Mark O)).
  assert (length b1 = 9%nat) as Hlen1
    by (unfold b1; rewrite length_setCell_in_range; assumption).
  assert (cellAt b1 t = Null) as Ht1
    by (unfold b1; rewrite cellAt_setCell_other; assumption).
  assert (checkWinner (setCell b1 t (Mark X)) = Some X) as Hloss.
  { destruct (checkWinner_Some_held _ _ Hthreat) as (combo & Hin & Hheld).
    assert (lineHeldBy (setCell b1 t (Mark X)) combo X) as Hheld'.
    { revert Hheld. apply lineHeldBy_transfer. intros c Hc.
      destruct (decide (t = c)) as [<-|Htc];
        [apply cellAt_setCell_same|].
      rewrite cellAt_setCell_other in Hc |- * by assumption.
      unfold b1. rewrite cellAt_setCell_other; [assumption|].
      intros <-. congruence. }
    destruct (only_the_mover_can_win_aux b1 t X) as [Hn | Hs];
      [apply no_winner_after_O, Hj | | exact Hs].
    exfalso. exact (held_line_gives_winner _ _ _ Hin Hheld' Hn). }
  destruct (minimax_no_winner_lower_bound b1 0 false Hlen1
              (no_winner_after_O j Hj) ltac:(lia))
    as (z & Hz & Hlow).
  { pose proof (nullCount_after_O j Hj). fold b1 in H. lia. }
  rewrite Hz. f_equal.
  assert (sle (minimax b1 0 false) (Fin (-9))) as Hle.
  { pose proof (no_winner_after_O j Hj) as Hnone1. fold b1 in Hnone1.
    rewrite minimax_unfold, Hnone1, (not_full_of_null b1 t Ht1).
    replace (Fin (-9)) with (minimax (setCell b1 t (Mark X)) (0 + 1) true)
      by (rewrite minimax_unfold, Hloss; reflexivity).
    apply (foldl_smin_spec
             (fun i => minimax (setCell b1 i (Mark X)) (0 + 1) true)).
    apply elem_of_nullIndices. split; [assumption | lia]. }
  rewrite Hz in Hle. unfold sle in Hle. simpl in Hle.
  rewrite Z.gtb_ltb in Hle. apply Z.ltb_ge in Hle. lia.
Qed.

(** Blocking keeps the score above [-9]. *)
Lemma score_of_blocking :
  exists z, minimax (setCell b t (Mark O)) 0 false = Fin z /\ -8 <= z.
Proof using All.
  pose proof (cellAt_Null_lt _ _ Htnull) as Htlt.
  set (b1 := setCell b t (Mark O)).
  assert (length b1 = 9%nat) as Hlen1
    by (unfold b1; rewrite length_setCell_in_range; assumption).
  pose proof (no_winner_after_O t Htnull) as Hnone1. fold b1 in Hnone1.
  rewrite minimax_unfold, Hnone1.
  destruct (isBoardFull b1) eqn:Hfull; [exists 0; split; [reflexivity|lia]|].
  pose proof (nullIndices_nonempty b1 Hlen1 Hfull) as Hne.
  destruct (foldl_smin_attained
              (fun i => minimax (setCell b1 i (Mark X)) (0 + 1) true)
              (nullIndices b1) Hne) as (k & Hk & ->).
  apply elem_of_nullIndices in Hk as [Hk1 Hk9].
  assert (k <> t) as Hkt
    by (intros ->; unfold b1 in Hk1; rewrite cellAt_setCell_same in Hk1;
        discriminate).
  assert (cellAt b k = Null) as Hk0
    by (unfold b1 in Hk1; rewrite cellAt_setCell_other in Hk1; congruence).
  assert (checkWinner (setCell b1 k (Mark X)) = None) as Hnone2.
  { destruct (only_the_mover_can_win_aux b1 k X Hnone1) as [Hn | Hs];
      [exact Hn|].
    exfalso. destruct (checkWinner_Some_held _ _ Hs) as (combo & Hin & Hheld).
    assert (lineHeldBy (setCell b k (Mark X)) combo X) as Hheld'.
    { revert Hheld. apply lineHeldBy_transfer. intros c Hc.
      destruct (decide (k = c)) as [<-|Hkc];
        [apply cellAt_setCell_same|].
      rewrite cellAt_setCell_other in Hc |- * by assumption.
      unfold b1 in Hc. destruct (decide (t = c)) as [<-|Htc].
      - rewrite cellAt_setCell_same in Hc. discriminate.
      - rewrite cellAt_setCell_other in Hc; assumption. }
    destruct (only_the_mover_can_win_aux b k X Hnone) as [Hn | Hs'].
    - exact (held_line_gives_winner _ _ _ Hin Hheld' Hn).
    - exact (Honly k Hk0 Hkt Hs'). }
  destruct (minimax_no_winner_lower_bound (setCell b1 k (Mark X)) (0 + 1) true)
    as (z & Hz & Hlow); [| exact Hnone2 | lia | |].
  - rewrite length_setCell_in_range; [assumption | lia].
  - pose proof (nullCount_setCell b1 k X Hk9 Hk1).
    pose proof (nullCount_after_O t Htnull) as H8. fold b1 in H8. lia.
  - exists z. split; [assumption | lia].
Qed.

Lemma getBestMove_blocks : getBestMove b = Z.of_nat t.
Proof using All.
  destruct (getBestMove_choice b Hlen
              (getEmptyCells_nonempty_of_null _ _ Htnull))
    as (x & _ & Hx & Hxnull & Hmax).
  rewrite Hx. f_equal.
  destruct (decide (x = t)) as [|Hne]; [assumption|]. exfalso.
  specialize (Hmax t Htnull).
  rewrite (score_of_not_blocking x Hxnull Hne) in Hmax.
  destruct score_of_blocking as (z & Hz & Hlow). rewrite Hz in Hmax.
  unfold sle in Hmax. simpl in Hmax.
  rewrite Z.gtb_ltb in Hmax. apply Z.ltb_ge in Hmax. lia.
Qed.

End SingleThreat.

(** On a board of nine cells without a winner, if the computer cannot win
    with its next mark and 'X' threatens to complete a line at exactly one
    empty cell, [getBestMove] returns that cell: the computer blocks. *)
Theorem computer_blocks_single_threat (b : Board) (t : nat) :
  length b = 9%nat ->
  checkWinner b = None ->
  (forall j, cellAt b j = Null ->
             checkWinner (setCell b j (Mark O)) <> Some O) ->
  cellAt b t = Null ->
  checkWinner (setCell b t (Mark X)) = Some X ->
  (forall j, cellAt b j = Null -> j <> t ->
             checkWinner (setCell b j (Mark X)) <> Some X) ->
  getBestMove b = Z.of_nat t.
Proof. apply getBestMove_blocks. Qed.


(** 'X' on 0 and 1, 'O' in the centre: one threat, at index 2. *)
Definition oneThreat : Board :=
  [Mark X; Mark X; Null; Null; Mark O; Null; Null; Null; Null].

Lemma computer_blocks_single_threat_witness :
  getBestMove oneThreat = 2.
Proof.
  apply (computer_blocks_single_threat oneThreat 2); try reflexivity.
  - intros j Hj.
    do 9 (destruct j as [|j]; [vm_compute; discriminate|]).
    vm_compute in Hj. discriminate Hj.
  - intros j Hj Hne.
    do 9 (destruct j as [|j];
          [first [congruence | discriminate Hj | vm_compute; discriminate]|]).
    vm_compute in Hj. discriminate Hj.
Defined.

(** *** Who can end the game *)

(** In the two-player component a click that ends a reachable game as won
    records the player who clicked as the winner. *)
Theorem twoPlayer_winner_is_who_clicked (s : Session) (index : nat) :
  TwoPlayerReachable s ->
  gameState s = Playing ->
  gameState (TwoPlayer.handleCellClick index s) = Won ->
  winner (TwoPlayer.handleCellClick index s) = Some (currentPlayer s)
  /\ checkWinner (board (TwoPlayer.handleCellClick index s))
     = Some (currentPlayer s).
Proof.
  intros Hreach Hp.
  pose proof (twoPlayer_reachable_phase s Hreach) as Hphase.
  unfold phaseMatchesBoard in Hphase. rewrite Hp in Hphase.
  destruct Hphase as (Hnone & _ & _).
  destruct (twoPlayer_click_cases index s) as [-> | (_ & _ & ->)];
    [congruence|].
  rewrite board_settleMove. unfold settleMove.
  destruct (checkWinner (setCell (board s) index (Mark (currentPlayer s))))
    as [w|] eqn:Hw.
  - intros _. cbn [winner].
    rewrite (winner_is_the_mover _ _ _ _ Hnone Hw). auto.
  - destruct (isBoardFull _); cbn [gameState]; congruence.
Qed.

Lemma lastCellWins_reachable : TwoPlayerReachable lastCellWins.
Proof.
  change lastCellWins
    with (TwoPlayer.handleCellClick 6 (TwoPlayer.handleCellClick 7
           (TwoPlayer.handleCellClick 5 (TwoPlayer.handleCellClick 4
             (TwoPlayer.handleCellClick 3 (TwoPlayer.handleCellClick 2
               (TwoPlayer.handleCellClick 1 (TwoPlayer.handleCellClick 0
                 newSession)))))))).
  repeat (apply tp_click; [|vm_compute; lia]). apply tp_init.
Defined.

Lemma twoPlayer_winner_is_who_clicked_witness :
  winner (TwoPlayer.handleCellClick 8 lastCellWins) = Some X.
Proof.
  exact (proj1 (twoPlayer_winner_is_who_clicked lastCellWins 8
                  lastCellWins_reachable eq_refl eq_refl)).
Defined.

(** Against the computer no click ever wins the game: from a reachable
    state a click either is ignored, or leaves the game in progress with
    the computer to move, or fills the last cell for a draw. *)
Theorem human_click_never_wins (s : Session) (index : nat) :
  VsComputerReachable s ->
  (index < length (board s))%nat ->
  gameState s = Playing ->
  gameState (VsComputer.handleCellClick index s) <> Won.
Proof.
  intros Hreach Hi Hp Hwon.
  assert (VsComputerReachable (VsComputer.handleCellClick index s)) as Hr'
    by (apply vc_click; assumption).
  destruct (vsComputer_reachable_unbeaten _ Hr') as (_ & Hw & _ & _).
  pose proof (vsComputer_reachable_phase _ Hr') as Hphase'.
  pose proof (vsComputer_reachable_phase s Hreach) as Hphase.
  unfold phaseMatchesBoard in Hphase, Hphase'.
  rewrite Hp in Hphase. rewrite Hwon in Hphase'.
  destruct Hphase as (Hnone & _ & _). destruct Hphase' as [[w Hw'] Hcw].
  destruct (vsComputer_click_cases index s) as [Heq | (_ & _ & _ & Heq)];
    rewrite Heq in *; [congruence|].
  rewrite board_settleMove in Hcw. rewrite Hw' in Hcw.
  pose proof (winner_is_the_mover _ _ _ _ Hnone Hcw) as ->.
  congruence.
Qed.

Lemma human_click_never_wins_witness :
  gameState (VsComputer.handleCellClick 4 newSession) <> Won.
Proof.
  refine (human_click_never_wins newSession 4 vc_init _ eq_refl).
  simpl. lia.
Defined.

(** *** The counters never go below zero *)

Definition countersNonNegative (s : Session) : Prop :=
  0 <= xWins (stats s) /\ 0 <= oWins (stats s) /\ 0 <= draws (stats s).

Lemma countersNonNegative_step s s' :
  countsTheFinishedGame s s' -> countersNonNegative s ->
  countersNonNegative s'.
Proof.
  intros [Hsame Hdiff] (Hx & Ho & Hd). unfold countersNonNegative.
  destruct (decide (gameState s' = gameState s)) as [Heq|Hne].
  - rewrite (Hsame Heq). auto.
  - destruct (Hdiff Hne) as (_ & _ & ? & ? & ?). lia.
Qed.

(** In every reachable state of either component the three counters are
    non-negative. *)
Theorem reachable_counters_non_negative (s : Session) :
  TwoPlayerReachable s \/ VsComputerReachable s -> countersNonNegative s.
Proof.
  assert (forall st, countersNonNegative
                       {| board := emptyBoard; currentPlayer := X;
                          gameState := Playing; winner := None;
                          stats := st |}
                     <-> 0 <= xWins st /\ 0 <= oWins st /\ 0 <= draws st)
    as Hfresh by (intros st; reflexivity).
  intros [H | H].
  - induction H as [|s index H IH Hi|s H IH|s H IH].
    + unfold countersNonNegative. simpl. lia.
    + eapply countersNonNegative_step; [|exact IH].
      destruct (twoPlayer_click_cases index s) as [-> | (Hp & _ & ->)];
        [apply countsTheFinishedGame_refl|].
      apply settleMove_countsTheFinishedGame, Hp.
    + apply Hfresh, IH.
    + unfold countersNonNegative. simpl. lia.
  - induction H as [|s index H IH Hi|s r H IH|s H IH|s H IH].
    + unfold countersNonNegative. simpl. lia.
    + eapply countersNonNegative_step; [|exact IH].
      destruct (vsComputer_click_cases index s) as [-> | (Hp & _ & _ & ->)];
        [apply countsTheFinishedGame_refl|].
      apply settleMove_countsTheFinishedGame, Hp.
    + eapply countersNonNegative_step; [|exact IH].
      destruct (computerTurn_cases r s) as [-> | (Hp & _ & i & _ & _ & ->)];
        [apply countsTheFinishedGame_refl|].
      apply settleMove_countsTheFinishedGame, Hp.
    + apply Hfresh, IH.
    + unfold countersNonNegative. simpl. lia.
Qed.

Lemma reachable_counters_non_negative_witness :
  countersNonNegative (resetStats (TwoPlayer.handleCellClick 4 newSession)).
Proof.
  apply reachable_counters_non_negative. left.
  apply tp_resetStats, tp_click; [apply tp_init | simpl; lia].
Defined.
